(** * The Stage Music: transport, queue traversal and visualizer colours

    A shallow embedding of the playback core of the application:
    - [App.tsx]: [handleTrackSelect], [togglePlay], [handleNext],
      [handlePrevious], [handleSeek], [toggleShuffle] and the audio-element
      event handlers;
    - [components/Stage.tsx]: the bar colour computed in [draw] and
      [progressPercentage] (the same expression is used in
      [components/Library.tsx]).

    JavaScript numbers are embedded as exact rationals ([Q]) extended with
    [NaN] and [+Infinity] where the code can meet them (the [duration] of a
    media element); rounding of IEEE doubles is not modelled.  Array indices
    are integers ([Z]) and [%] is the truncated remainder [Z.rem]. *)

From Stdlib Require Import String List ZArith QArith Qround Lia Lqa Bool.
From Stdlib Require Import DecimalString Permutation.
Import ListNotations.

Local Open Scope string_scope.

(* ------------------------------------------------------------------ *)
(** ** JavaScript values used by the code *)

Module Js.

(** A JS [number] as the code can observe it: a finite value, [NaN]
    (the duration of an element without metadata) or [+Infinity]
    (the duration of an unbounded stream). *)
Inductive number : Type :=
| Fin (q : Q)
| NaN
| PInf.

Definition Qlt_bool (a b : Q) : bool := negb (Qle_bool b a).

(** [ToBoolean] on numbers: [0] and [NaN] are falsy. *)
Definition truthy (n : number) : bool :=
  match n with
  | Fin q => negb (Qeq_bool q 0)
  | NaN => false
  | PInf => true
  end.

(** [n > 0]. *)
Definition gt0 (n : number) : bool :=
  match n with
  | Fin q => Qlt_bool 0 q
  | NaN => false
  | PInf => true
  end.

(** [a + b] on the values above. *)
Definition add (a b : number) : number :=
  match a, b with
  | Fin x, Fin y => Fin (x + y)
  | NaN, _ | _, NaN => NaN
  | _, _ => PInf
  end.

(** [x || 0] for a nullable numeric column. *)
Definition or0 (o : option number) : number :=
  match o with
  | Some n => if truthy n then n else Fin 0
  | None => Fin 0
  end.

(** [ToBoolean] on strings and on [string | null]. *)
Definition truthy_string (s : string) : bool := negb (s =? "").

Definition truthy_opt (o : option string) : bool :=
  match o with
  | Some s => truthy_string s
  | None => false
  end.

(** [a % b] on integers: the sign follows the dividend.  The one case
    where JS yields [-0] (as in [-1 % 1]) indexes an array like [0]. *)
Definition rem (a b : Z) : Z := Z.rem a b.

(** [Math.max(a, b)] and [Math.min(a, b)] on finite numbers. *)
Definition max (a b : Q) : Q := if Qle_bool a b then b else a.
Definition min (a b : Q) : Q := if Qle_bool a b then a else b.

(** [Math.trunc] and the floating [%] on finite numbers. *)
Definition trunc (x : Q) : Z :=
  if Qle_bool 0 x then Qfloor x else Qceiling x.

Definition frem (x m : Q) : Q := x - m * inject_Z (trunc (x / m)).

(** [Math.floor(r * n)] for [r] drawn by [Math.random()]. *)
Definition floor_scaled (r : Q) (n : nat) : Z :=
  Qfloor (r * inject_Z (Z.of_nat n)).

(** [arr[i]]: [undefined] (here [None]) outside [0 .. length-1]. *)
Definition at_index {A : Type} (arr : list A) (i : Z) : option A :=
  if (i <? 0)%Z then None else nth_error arr (Z.to_nat i).

(** [arr.findIndex(p)]: [-1] when no element satisfies [p]. *)
Fixpoint findIndex {A : Type} (p : A -> bool) (arr : list A) : Z :=
  match arr with
  | [] => (-1)%Z
  | x :: rest =>
      if p x then 0%Z
      else let k := findIndex p rest in
           if (k <? 0)%Z then (-1)%Z else (k + 1)%Z
  end.

(** What a handler does: it returns, or a property access on
    [undefined] throws. *)
Inductive outcome (A : Type) : Type :=
| Done (a : A)
| TypeError.

Arguments Done {A} a.
Arguments TypeError {A}.

End Js.

(* ------------------------------------------------------------------ *)
(** ** Data model of [App.tsx] *)

Inductive View : Type := LIBRARY | STAGE | PROFILE | SEARCH.

Record Track : Type := mkTrack {
  id : string;
  user_id : option string;
  title : string;
  artist : string;
  bpm : string;
  isFavorite : bool;
  coverUrl : string;
  audioUrl : option string;
  storagePath : option string;
  accentColor : option string
}.

(** The row of table [profiles] that belongs to the signed-in user. *)
Record Profile : Type := mkProfile {
  total_plays : option Z;
  total_playtime : option Js.number
}.

(** The [<audio>] element behind [audioRef]: the bound source and the
    element's own playback position (the elapsed time of the track). *)
Record Audio : Type := mkAudio {
  src : string;
  position : Q
}.

Inductive AudioContextState : Type := Suspended | Running.

(** Calls made on the audio element, oldest first.  [Play s ok] records
    whether the promise returned by [play()] was fulfilled. *)
Inductive EngineCall : Type :=
| Play (source : string) (ok : bool)
| Pause.

(** React state, refs and the two external collaborators the handlers
    touch (the profile row and the console). *)
Record AppState : Type := mkApp {
  currentView : View;
  isShuffle : bool;
  tracks : list Track;
  session : option string;
  activeTrackId : option string;
  isPlaying : bool;
  currentTime : Q;
  duration : Js.number;
  currentQueue : list Track;
  audioRef : option Audio;
  audioContextRef : option AudioContextState;
  profiles : option Profile;
  engine : list EngineCall;
  console : list string
}.

(** What the outside world answers during one handler call. *)
Inductive StatsAnswer : Type :=
| Answered             (* the requests on table profiles go through *)
| Refused              (* the select returns an error object *)
| Thrown.              (* a request throws *)

Record Env : Type := mkEnv {
  random : Q;          (* the value of Math.random(), in [0,1) *)
  playOk : bool;       (* does audio.play() succeed *)
  stats : StatsAnswer  (* what the stats collaborator does *)
}.

Definition set_currentView (v : View) (s : AppState) : AppState :=
  mkApp v (isShuffle s) (tracks s) (session s) (activeTrackId s) (isPlaying s)
        (currentTime s) (duration s) (currentQueue s) (audioRef s)
        (audioContextRef s) (profiles s) (engine s) (console s).

Definition set_isShuffle (b : bool) (s : AppState) : AppState :=
  mkApp (currentView s) b (tracks s) (session s) (activeTrackId s) (isPlaying s)
        (currentTime s) (duration s) (currentQueue s) (audioRef s)
        (audioContextRef s) (profiles s) (engine s) (console s).

Definition set_activeTrackId (a : option string) (s : AppState) : AppState :=
  mkApp (currentView s) (isShuffle s) (tracks s) (session s) a (isPlaying s)
        (currentTime s) (duration s) (currentQueue s) (audioRef s)
        (audioContextRef s) (profiles s) (engine s) (console s).

Definition set_isPlaying (b : bool) (s : AppState) : AppState :=
  mkApp (currentView s) (isShuffle s) (tracks s) (session s) (activeTrackId s) b
        (currentTime s) (duration s) (currentQueue s) (audioRef s)
        (audioContextRef s) (profiles s) (engine s) (console s).

Definition set_currentTime (t : Q) (s : AppState) : AppState :=
  mkApp (currentView s) (isShuffle s) (tracks s) (session s) (activeTrackId s)
        (isPlaying s) t (duration s) (currentQueue s) (audioRef s)
        (audioContextRef s) (profiles s) (engine s) (console s).

Definition set_duration (d : Js.number) (s : AppState) : AppState :=
  mkApp (currentView s) (isShuffle s) (tracks s) (session s) (activeTrackId s)
        (isPlaying s) (currentTime s) d (currentQueue s) (audioRef s)
        (audioContextRef s) (profiles s) (engine s) (console s).

Definition set_currentQueue (q : list Track) (s : AppState) : AppState :=
  mkApp (currentView s) (isShuffle s) (tracks s) (session s) (activeTrackId s)
        (isPlaying s) (currentTime s) (duration s) q (audioRef s)
        (audioContextRef s) (profiles s) (engine s) (console s).

Definition set_audioRef (a : option Audio) (s : AppState) : AppState :=
  mkApp (currentView s) (isShuffle s) (tracks s) (session s) (activeTrackId s)
        (isPlaying s) (currentTime s) (duration s) (currentQueue s) a
        (audioContextRef s) (profiles s) (engine s) (console s).

Definition set_audioContextRef (c : option AudioContextState) (s : AppState)
  : AppState :=
  mkApp (currentView s) (isShuffle s) (tracks s) (session s) (activeTrackId s)
        (isPlaying s) (currentTime s) (duration s) (currentQueue s) (audioRef s)
        c (profiles s) (engine s) (console s).

Definition set_profiles (p : option Profile) (s : AppState) : AppState :=
  mkApp (currentView s) (isShuffle s) (tracks s) (session s) (activeTrackId s)
        (isPlaying s) (currentTime s) (duration s) (currentQueue s) (audioRef s)
        (audioContextRef s) p (engine s) (console s).

Definition push_engine (c : EngineCall) (s : AppState) : AppState :=
  mkApp (currentView s) (isShuffle s) (tracks s) (session s) (activeTrackId s)
        (isPlaying s) (currentTime s) (duration s) (currentQueue s) (audioRef s)
        (audioContextRef s) (profiles s) (engine s ++ [c]) (console s).

Definition push_console (m : string) (s : AppState) : AppState :=
  mkApp (currentView s) (isShuffle s) (tracks s) (session s) (activeTrackId s)
        (isPlaying s) (currentTime s) (duration s) (currentQueue s) (audioRef s)
        (audioContextRef s) (profiles s) (engine s) (console s ++ [m]).

(** The ids of a queue, in order. *)
Definition ids (q : list Track) : list string := map id q.

(** [t => t.id === x] and [t => t.id !== x]. *)
Definition has_id (x : string) (t : Track) : bool := id t =? x.
Definition other_id (x : string) (t : Track) : bool := negb (id t =? x).

(* ------------------------------------------------------------------ *)
(** ** The handlers of [App.tsx] *)

(** [initAudioEngine]: builds the audio graph once, when the element is
    mounted, and resumes a suspended context. *)
Definition initAudioEngine (s : AppState) : AppState :=
  let s1 :=
    match audioContextRef s, audioRef s with
    | None, Some _ => set_audioContextRef (Some Suspended) s
    | _, _ => s
    end in
  match audioContextRef s1 with
  | Some Suspended => set_audioContextRef (Some Running) s1
  | _ => s1
  end.

(** [audio.play().catch(e => console.error(...))]. *)
Definition audio_play (env : Env) (s : AppState) : AppState :=
  match audioRef s with
  | None => s
  | Some a =>
      let s1 := push_engine (Play (src a) (playOk env)) s in
      if playOk env then s1 else push_console "Playback failed:" s1
  end.

(** The read-then-write increment of [total_plays]. *)
Definition incrementPlayCount (env : Env) (s : AppState) : AppState :=
  if Js.truthy_opt (session s) then
    match stats env with
    | Answered =>
        match profiles s with
        | Some p =>
            let n := match total_plays p with
                     | Some k => k
                     | None => 0%Z
                     end in
            set_profiles
              (Some (mkProfile (Some (n + 1)%Z) (total_playtime p))) s
        | None => s
        end
    | Refused => s
    | Thrown => push_console "Failed to update play stats:" s
    end
  else s.

(** [queue || (currentQueue.length > 0 ? currentQueue : tracks)]: the queue
    in which [handleTrackSelect] resolves the id. *)
Definition targetQueue (queue : option (list Track)) (s : AppState)
  : list Track :=
  match queue with
  | Some q => q
  | None =>
      if (0 <? length (currentQueue s))%nat
      then currentQueue s else tracks s
  end.

(** [handleTrackSelect(trackId, queue?)].  The closure reads
    [activeTrackId], [currentQueue], [tracks] and [session] of the render
    it was created in, which is the state [s]. *)
Definition handleTrackSelect (env : Env) (trackId : string)
    (queue : option (list Track)) (s : AppState) : AppState :=
  let s1 := initAudioEngine s in
  let s2 :=
    match queue with
    | Some q => set_currentQueue q s1
    | None =>
        if (length (currentQueue s) =? 0)%nat
        then set_currentQueue (tracks s) s1 else s1
    end in
  match find (has_id trackId) (targetQueue queue s) with
  | None => s2
  | Some track =>
      let s3 :=
        if match activeTrackId s with
           | Some a => a =? trackId
           | None => false
           end
        then s2
        else
          let s4 := set_activeTrackId (Some trackId) s2 in
          match audioRef s4 with
          | None => s4
          | Some _ =>
              if Js.truthy_opt (audioUrl track) then
                let url := match audioUrl track with
                           | Some u => u
                           | None => ""
                           end in
                (* binding a new source rewinds the element *)
                let s5 := set_audioRef (Some (mkAudio url 0)) s4 in
                let s6 := audio_play env s5 in
                let s7 := set_isPlaying true s6 in
                incrementPlayCount env s7
              else s4
          end in
      set_currentView STAGE s3
  end.

(** [togglePlay]. *)
Definition togglePlay (env : Env) (s : AppState) : AppState :=
  let s1 := initAudioEngine s in
  match audioRef s1 with
  | None => s1
  | Some _ =>
      if negb (Js.truthy_opt (activeTrackId s)) then s1
      else
        let s2 := if isPlaying s
                  then push_engine Pause s1
                  else audio_play env s1 in
        set_isPlaying (negb (isPlaying s)) s2
  end.

(** The read-then-write increment of [total_playtime] in [handleNext]:
    the amount added is the state variable [duration]. *)
Definition addPlaytime (env : Env) (s : AppState) : AppState :=
  if Js.truthy_opt (session s) && Js.gt0 (duration s) then
    match stats env with
    | Answered =>
        match profiles s with
        | Some p =>
            set_profiles
              (Some (mkProfile (total_plays p)
                       (Some (Js.add (Js.or0 (total_playtime p))
                                     (duration s)))))
              s
        | None => s
        end
    | Refused => s
    | Thrown => push_console "Failed to update playtime:" s
    end
  else s.

(** The id chosen by [handleNext]; [None] when [.id] is read on
    [undefined]. *)
Definition nextTrackId (env : Env) (shuffle : bool) (active : string)
    (queue : list Track) : option string :=
  if shuffle then
    let otherTracks := filter (other_id active) queue in
    if (0 <? length otherTracks)%nat then
      let randomIndex := Js.floor_scaled (random env) (length otherTracks) in
      option_map id (Js.at_index otherTracks randomIndex)
    else Some active
  else
    let currentIndex := Js.findIndex (has_id active) queue in
    let nextIndex :=
      Js.rem (currentIndex + 1) (Z.of_nat (length queue)) in
    option_map id (Js.at_index queue nextIndex).

(** The id chosen by [handlePrevious]. *)
Definition prevTrackId (env : Env) (shuffle : bool) (active : string)
    (queue : list Track) : option string :=
  if shuffle then
    let otherTracks := filter (other_id active) queue in
    if (0 <? length otherTracks)%nat then
      let randomIndex := Js.floor_scaled (random env) (length otherTracks) in
      option_map id (Js.at_index otherTracks randomIndex)
    else Some active
  else
    let currentIndex := Js.findIndex (has_id active) queue in
    let prevIndex :=
      Js.rem (currentIndex - 1 + Z.of_nat (length queue))
             (Z.of_nat (length queue)) in
    option_map id (Js.at_index queue prevIndex).

(** [handleNext]. *)
Definition handleNext (env : Env) (s : AppState) : Js.outcome AppState :=
  match activeTrackId s with
  | None => Js.Done s
  | Some active =>
      if negb (Js.truthy_string active)
         || (length (currentQueue s) =? 0)%nat
      then Js.Done s
      else
        let s1 := addPlaytime env s in
        match nextTrackId env (isShuffle s) active (currentQueue s) with
        | None => Js.TypeError
        | Some nid => Js.Done (handleTrackSelect env nid None s1)
        end
  end.

(** [handlePrevious]. *)
Definition handlePrevious (env : Env) (s : AppState) : Js.outcome AppState :=
  match activeTrackId s with
  | None => Js.Done s
  | Some active =>
      if negb (Js.truthy_string active)
         || (length (currentQueue s) =? 0)%nat
      then Js.Done s
      else
        match audioRef s with
        | Some a =>
            if Js.Qlt_bool 3 (position a)
            then Js.Done (set_audioRef (Some (mkAudio (src a) 0)) s)
            else
              match prevTrackId env (isShuffle s) active (currentQueue s) with
              | None => Js.TypeError
              | Some pid => Js.Done (handleTrackSelect env pid None s)
              end
        | None =>
            match prevTrackId env (isShuffle s) active (currentQueue s) with
            | None => Js.TypeError
            | Some pid => Js.Done (handleTrackSelect env pid None s)
            end
        end
  end.

(** [handleTimeUpdate], [handleLoadedMetadata], the [onPlay] and [onPause]
    props of the element, [handleSeek] and [toggleShuffle]. *)
Definition handleTimeUpdate (s : AppState) : AppState :=
  match audioRef s with
  | Some a => set_currentTime (position a) s
  | None => s
  end.

Definition handleLoadedMetadata (d : Js.number) (s : AppState) : AppState :=
  match audioRef s with
  | Some _ => set_duration d s
  | None => s
  end.

Definition onPlay (s : AppState) : AppState := set_isPlaying true s.
Definition onPause (s : AppState) : AppState := set_isPlaying false s.

Definition handleSeek (time : Q) (s : AppState) : AppState :=
  match audioRef s with
  | Some a => set_currentTime time (set_audioRef (Some (mkAudio (src a) time)) s)
  | None => s
  end.

Definition toggleShuffle (s : AppState) : AppState :=
  set_isShuffle (negb (isShuffle s)) s.

(** The element's clock: the playback position reaches [t]. *)
Definition elapse (t : Q) (s : AppState) : AppState :=
  match audioRef s with
  | Some a => set_audioRef (Some (mkAudio (src a) t)) s
  | None => s
  end.

(** The playback position has not passed three seconds. *)
Definition within_3s (s : AppState) : Prop :=
  forall au, audioRef s = Some au -> position au <= 3.

(** The cumulative playtime held by the stats collaborator. *)
Definition playtime (s : AppState) : option (option Js.number) :=
  option_map total_playtime (profiles s).

(** The active id after a handler ran ([None] when it threw). *)
Definition cursor_after (o : Js.outcome AppState) : option string :=
  match o with
  | Js.Done s' => activeTrackId s'
  | Js.TypeError => None
  end.

(* ------------------------------------------------------------------ *)
(** ** [components/Stage.tsx]: colours of the spectrum and progress *)

Module Stage.

Record Hsl : Type := mkHsl { h : Q; s : Q; l : Q }.

(** [hexToHsl], from the three channel values that [parseInt] reads out
    of a well-formed [#rrggbb] colour (each in 0..255). *)
Definition hexToHsl (red green blue : Z) : Hsl :=
  let r := inject_Z red / 255 in
  let g := inject_Z green / 255 in
  let b := inject_Z blue / 255 in
  let max := Js.max (Js.max r g) b in
  let min := Js.min (Js.min r g) b in
  let l := (max + min) / 2 in
  if Qeq_bool max min then mkHsl (0 * 360) (0 * 100) (l * 100)
  else
    let d := max - min in
    let s := if Js.Qlt_bool (1 # 2) l
             then d / (2 - max - min) else d / (max + min) in
    let h :=
      if Qeq_bool max r
      then (g - b) / d + (if Js.Qlt_bool g b then 6 else 0)
      else if Qeq_bool max g then (b - r) / d + 2
      else if Qeq_bool max b then (r - g) / d + 4
      else 0 in
    mkHsl (h / 6 * 360) (s * 100) (l * 100).

(** The colour written to [ctx.fillStyle]:
    [hsl(${currentHue}, 90%, ${currentLightness}%)]. *)
Record FillStyle : Type := hsl {
  hue : Q;
  saturation : Q;
  lightness : Q
}.

(** [displayBins = bufferLength / 2]. *)
Definition displayBins (bufferLength : nat) : Q :=
  inject_Z (Z.of_nat bufferLength) / 2.

(** The body of the loop of [draw] that colours bar [i], whose sample
    [dataArray[i]] is [magnitude]. *)
Definition barColor (baseHsl : Hsl) (bufferLength : nat) (i : nat)
    (magnitude : Z) : FillStyle :=
  let hueShift :=
    (inject_Z (Z.of_nat i) / displayBins bufferLength) * 120 - 60 in
  let currentHue := Js.frem (h baseHsl + hueShift + 360) 360 in
  let currentLightness :=
    Js.max 50 (l baseHsl + 10) + (inject_Z magnitude / 255) * 30 in
  hsl currentHue 90 currentLightness.

(** [duration ? (currentTime / duration) * 100 : 0], for a finite
    position.  A finite number divided by [Infinity] is [0]. *)
Definition progressPercentage (currentTime : Q) (duration : Js.number) : Q :=
  if Js.truthy duration then
    match duration with
    | Js.Fin d => (currentTime / d) * 100
    | Js.PInf => 0 * 100
    | Js.NaN => 0
    end
  else 0.

End Stage.

(* ------------------------------------------------------------------ *)
(** ** The wording of the specification, where it is compared with the code *)

(** [x mod m] with a result in [[0, m)]. *)
Definition mod_spec (x m : Q) : Q := x - m * inject_Z (Qfloor (x / m)).

(** [min(max(t, 0), duration)]. *)
Definition clamp_spec (t d : Q) : Q := Js.min (Js.max t 0) d.

(** "next/previous fall back to treating the active track as the sole
    member": the handler keeps the active id. *)
Definition falls_back_to_active
    (handler : Env -> AppState -> Js.outcome AppState)
    (env : Env) (s : AppState) : Prop :=
  cursor_after (handler env s) = activeTrackId s.

(** "reports elapsed time to the external stats collaborator": the total
    grows by the position the element has reached. *)
Definition reports_elapsed (env : Env) (s : AppState) : Prop :=
  forall au p s',
    audioRef s = Some au -> profiles s = Some p ->
    handleNext env s = Js.Done s' ->
    playtime s'
    = Some (Some (Js.add (Js.or0 (total_playtime p)) (Js.Fin (position au)))).

(** "remains in Paused with the failing track still marked active; a
    repeated togglePlay() retries the same source". *)
Definition paused_then_retries (env : Env) (x url : string) (s : AppState)
  : Prop :=
  let s1 := handleTrackSelect env x None s in
  isPlaying s1 = false
  /\ activeTrackId s1 = Some x
  /\ engine (togglePlay env s1) = (engine s1 ++ [Play url (playOk env)])%list.

(** "seek clamps to [0, duration]; updates reported position
    immediately". *)
Definition seek_reports_clamped (t d : Q) (s : AppState) : Prop :=
  currentTime (handleSeek t s) == clamp_spec t d.

(** "100 exactly when position equals duration". *)
Definition full_iff_at_end (c d : Q) : Prop :=
  Stage.progressPercentage c (Js.Fin d) == 100 <-> c == d.

(* ------------------------------------------------------------------ *)
(** ** Concrete tracks and states *)

Definition track (i : string) : Track :=
  mkTrack i None ("Title " ++ i) "Artist" "120" false "cover.png"
          (Some (i ++ ".mp3")) None (Some "#0d33f2").

Definition queueABC : list Track := [track "A"; track "B"; track "C"].

Definition env0 : Env := mkEnv 0 true Answered.
Definition envHalf : Env := mkEnv (1 # 2) true Answered.
Definition envFail : Env := mkEnv 0 false Answered.

(** A signed-in user, queue [A,B,C]; [active] is playing at position [pos]
    of a track that lasts 200 seconds. *)
Definition playing (active : string) (shuffle : bool) (pos : Q) : AppState :=
  mkApp STAGE shuffle queueABC (Some "user-1") (Some active) true pos
        (Js.Fin 200) queueABC (Some (mkAudio (active ++ ".mp3") pos))
        (Some Running) (Some (mkProfile (Some 7%Z) (Some (Js.Fin 1000))))
        [] [].

(** The library right after loading: nothing selected yet. *)
Definition idle : AppState :=
  mkApp LIBRARY false queueABC (Some "user-1") None false 0 (Js.Fin 0)
        [] (Some (mkAudio "" 0)) None
        (Some (mkProfile (Some 7%Z) (Some (Js.Fin 1000)))) [] [].

(* ------------------------------------------------------------------ *)
(** ** More of [App.tsx]: catalog, favourites and playlists *)

Definition set_tracks (l : list Track) (s : AppState) : AppState :=
  mkApp (currentView s) (isShuffle s) l (session s) (activeTrackId s)
        (isPlaying s) (currentTime s) (duration s) (currentQueue s)
        (audioRef s) (audioContextRef s) (profiles s) (engine s) (console s).

(** [handleNext] run once per element of [envs], stopping at the first
    throw. *)
Fixpoint nexts (envs : list Env) (s : AppState) : Js.outcome AppState :=
  match envs with
  | [] => Js.Done s
  | env :: rest =>
      match handleNext env s with
      | Js.Done s' => nexts rest s'
      | Js.TypeError => Js.TypeError
      end
  end.

(** [t.user_id === session.user.id]. *)
Definition owned_by (uid : string) (t : Track) : bool :=
  match user_id t with
  | Some u => u =? uid
  | None => false
  end.

(** [libraryTracks]: the favourites and the uploads of the signed-in
    user. *)
Definition libraryTracks (s : AppState) : list Track :=
  match session s with
  | Some uid =>
      if Js.truthy_string uid
      then filter (fun t => isFavorite t || owned_by uid t) (tracks s)
      else []
  | None => []
  end.

(** [{ ...t, isFavorite: !t.isFavorite }]. *)
Definition flipFavorite (t : Track) : Track :=
  mkTrack (id t) (user_id t) (title t) (artist t) (bpm t)
          (negb (isFavorite t)) (coverUrl t) (audioUrl t) (storagePath t)
          (accentColor t).

(** The request [toggleFavorite] sends to table [user_favorites]. *)
Inductive FavoriteRequest : Type :=
| DeleteFavorite (user trackId : string)
| InsertFavorite (user trackId : string).

(** [toggleFavorite], up to the request it issues: the optimistic update
    of [tracks] and the request.  (A failed request is followed by a
    reload of the catalog, which is not part of this function.) *)
Definition toggleFavorite (i : string) (s : AppState)
  : AppState * option FavoriteRequest :=
  match session s with
  | None => (s, None)
  | Some uid =>
      if negb (Js.truthy_string uid) then (s, None)
      else
        match find (has_id i) (tracks s) with
        | None => (s, None)
        | Some track =>
            (set_tracks
               (map (fun t => if id t =? i then flipFavorite t else t)
                    (tracks s)) s,
             Some (if isFavorite track
                   then DeleteFavorite uid i
                   else InsertFavorite uid i))
        end
  end.

Module Playlist.

Record t : Type := mk {
  id : string;
  name : string;
  tracks : list Track
}.

End Playlist.

(** A row of table [playlists] as [fetchPlaylists] selects it, with the
    [track_id]s of its [playlist_tracks]. *)
Record PlaylistRow : Type := mkPlaylistRow {
  row_id : string;
  row_name : string;
  playlist_tracks : list string
}.

(** [playlistTrackIds.includes(t.id)]. *)
Definition includes (l : list string) (x : string) : bool :=
  existsb (fun y => y =? x) l.

(** The mapping of rows to playlists in [fetchPlaylists]. *)
Definition mappedPlaylists (catalog : list Track) (rows : list PlaylistRow)
  : list Playlist.t :=
  map (fun pl =>
         Playlist.mk (row_id pl) (row_name pl)
           (filter (fun t => includes (playlist_tracks pl) (id t)) catalog))
      rows.

(** The optimistic update of [handleAddTrackToPlaylist]. *)
Definition handleAddTrackToPlaylist (catalog : list Track)
    (playlistId trackId : string) (prev : list Playlist.t)
  : list Playlist.t :=
  match find (has_id trackId) catalog with
  | Some trackToAdd =>
      map (fun pl =>
             if Playlist.id pl =? playlistId then
               if existsb (has_id trackId) (Playlist.tracks pl) then pl
               else Playlist.mk (Playlist.id pl) (Playlist.name pl)
                      (Playlist.tracks pl ++ [trackToAdd])
             else pl)
          prev
  | None => prev
  end.

(** The optimistic update of [handleRemoveTrackFromPlaylist]. *)
Definition handleRemoveTrackFromPlaylist (playlistId trackId : string)
    (prev : list Playlist.t) : list Playlist.t :=
  map (fun pl =>
         if Playlist.id pl =? playlistId then
           Playlist.mk (Playlist.id pl) (Playlist.name pl)
             (filter (other_id trackId) (Playlist.tracks pl))
         else pl)
      prev.

(** The metadata [handleAddTrack] invents for an upload:
    [colors[Math.floor(Math.random() * colors.length)]] and
    [Math.floor(Math.random() * 60) + 80]. *)
Definition colors : list string :=
  ["#0d33f2"; "#ff0055"; "#00ffcc"; "#ffcc00"; "#9d00ff"].

Definition randomColor (r : Q) : option string :=
  Js.at_index colors (Js.floor_scaled r (length colors)).

Definition randomBpm (r : Q) : Z := (Qfloor (r * 60) + 80)%Z.

(* ------------------------------------------------------------------ *)
(** ** [components/Library.tsx]: playing a playlist, playlist covers *)

Module Library.

(** [playPlaylist]. *)
Definition playPlaylist (env : Env) (pl : Playlist.t) (s : AppState)
  : AppState :=
  match Playlist.tracks pl with
  | [] => s
  | first :: _ =>
      handleTrackSelect env (id first) (Some (Playlist.tracks pl)) s
  end.

(** [id.charCodeAt(0) || 0], the code of the first character ([0] for the
    empty string). *)
Definition charCodeAt0 (s : string) : Z :=
  match s with
  | EmptyString => 0%Z
  | String c _ => Z.of_nat (Ascii.nat_of_ascii c)
  end.

(** [randomCover] of [PlaylistCover]: [null] (here [None]) for an empty
    playlist. *)
Definition randomCover (playlistTracks : list Track)
  : Js.outcome (option string) :=
  if (length playlistTracks =? 0)%nat then Js.Done None
  else
    let index :=
      Js.rem (charCodeAt0 (id (hd (track "") playlistTracks)))
             (Z.of_nat (length playlistTracks)) in
    match Js.at_index playlistTracks index with
    | Some t => Js.Done (Some (coverUrl t))
    | None => Js.TypeError
    end.

End Library.

(* ------------------------------------------------------------------ *)
(** ** More of [components/Stage.tsx]: time labels, progress bar, bars *)

Module StageView.

(** [n.toString()] for an integer (below [1e21] in absolute value, where JS
    still prints all digits). *)
Definition toString (z : Z) : string :=
  DecimalString.NilZero.string_of_int (Z.to_int z).

(** [s.padStart(targetLength, padString)]. *)
Definition padStart (targetLength : nat) (padString s : string) : string :=
  if (targetLength <=? String.length s)%nat then s
  else if (String.length padString =? 0)%nat then s
  else
    let fillLen := (targetLength - String.length s)%nat in
    String.substring 0 fillLen
      (String.concat "" (List.repeat padString fillLen)) ++ s.

(** [formatTime], for a finite time below [2^53] in absolute value.  There a
    double holds every whole second exactly, the quotient by 60 never
    rounds up to the next integer and [%] is exact, so the two floors are
    the exact ones and [toString] prints every digit; beyond that range the
    doubles of the code round and this definition does not follow them. *)
Definition formatTime (time : Q) : string :=
  let minutes := Qfloor (time / 60) in
  let seconds := Qfloor (Js.frem time 60) in
  toString minutes ++ ":" ++ padStart 2 "0" (toString seconds).

(** What [handleProgressBarClick] asks of [onSeek]. *)
Inductive SeekRequest : Type :=
| NoSeek                 (* the handler returned early *)
| SeekTo (time : Q)      (* onSeek(time) with a finite time *)
| SeekNotFinite.         (* onSeek(NaN) or onSeek(+-Infinity) *)

(** [handleProgressBarClick]: [clientX] is the pointer, [left] and [width]
    come from [getBoundingClientRect()]. *)
Definition handleProgressBarClick (clientX left width : Q)
    (duration : Js.number) : SeekRequest :=
  if negb (Js.truthy duration) then NoSeek
  else
    let x := clientX - left in
    match duration with
    | Js.Fin d =>
        if Qeq_bool width 0 then SeekNotFinite
        else SeekTo ((x / width) * d)
    | _ => SeekNotFinite
    end.

(** One rounded bar, as [ctx.roundRect] and [ctx.fill] receive it:
    [shadowBlur] is the blur in force when the bar is filled. *)
Record Bar : Type := mkBar {
  bin : nat;
  left : Q;
  top : Q;
  width : Q;
  height : Q;
  fillStyle : Stage.FillStyle;
  shadowBlur : Q
}.

Section Draw.

Variables (baseHsl : Stage.Hsl) (canvasWidth canvasHeight : Q).
Variables (bufferLength : nat) (dataArray : list Z).

(** [barWidth = (canvas.width / displayBins) * 2]. *)
Definition barWidth : Q :=
  (canvasWidth / Stage.displayBins bufferLength) * 2.

(** [barHeight = (dataArray[i] / 255) * canvas.height * 0.8]. *)
Definition barHeight (i : nat) : Q :=
  (inject_Z (nth i dataArray 0%Z) / 255) * canvasHeight * (8 # 10).

(** The [for] loop of [draw], from bin [i] at abscissa [x] with the
    context's [shadowBlur] equal to [blur]; [fuel] bounds the number of
    iterations. *)
Fixpoint drawFrom (fuel : nat) (i : nat) (x : Q) (blur : Q) : list Bar :=
  match fuel with
  | O => []
  | S fuel' =>
      if Js.Qlt_bool (inject_Z (Z.of_nat i)) (Stage.displayBins bufferLength)
      then
        let bar :=
          mkBar i x (canvasHeight - barHeight i) (barWidth - 1) (barHeight i)
                (Stage.barColor baseHsl bufferLength i (nth i dataArray 0%Z))
                blur in
        let blur' := if (180 <? nth i dataArray 0%Z)%Z then 20 else 0 in
        let x' := x + barWidth in
        if Js.Qlt_bool canvasWidth x' then [bar]
        else bar :: drawFrom fuel' (S i) x' blur'
      else []
  end.

(** The bars of one frame; [blur] is what the previous frame left in the
    context.  [bufferLength] iterations are enough, as the loop stops at
    [i >= bufferLength / 2]. *)
Definition draw (blur : Q) : list Bar := drawFrom bufferLength 0 0 blur.

End Draw.

End StageView.

(** A catalog row whose [audio_url] is missing. *)
Definition silentTrack : Track :=
  mkTrack "S" None "Silent" "Artist" "90" false "cover.png" None None None.

(** [(profile.total_plays || 0)]. *)
Definition plays (p : Profile) : Z :=
  match total_plays p with
  | Some k => k
  | None => 0%Z
  end.

(* ------------------------------------------------------------------ *)
(** ** The states the user interface can reach *)

(** One event of the application.  The components pass a queue that
    contains the clicked track ([Library.tsx]: [processedTracks],
    [activePlaylist.tracks], [playPlaylist]; [Search.tsx]:
    [filteredTracks]); [App.tsx] selects without a queue after an upload.
    The remaining constructors are the transport handlers, the element's
    events and clock, and updates of the catalog. *)
Inductive ui_step : AppState -> AppState -> Prop :=
| step_select_in (env : Env) (x : string) (q : list Track) (s : AppState) :
    In x (ids q) -> ui_step s (handleTrackSelect env x (Some q) s)
| step_select (env : Env) (x : string) (s : AppState) :
    ui_step s (handleTrackSelect env x None s)
| step_next (env : Env) (s s' : AppState) :
    handleNext env s = Js.Done s' -> ui_step s s'
| step_previous (env : Env) (s s' : AppState) :
    handlePrevious env s = Js.Done s' -> ui_step s s'
| step_togglePlay (env : Env) (s : AppState) : ui_step s (togglePlay env s)
| step_toggleShuffle (s : AppState) : ui_step s (toggleShuffle s)
| step_seek (t : Q) (s : AppState) : ui_step s (handleSeek t s)
| step_timeUpdate (s : AppState) : ui_step s (handleTimeUpdate s)
| step_loadedMetadata (d : Js.number) (s : AppState) :
    ui_step s (handleLoadedMetadata d s)
| step_onPlay (s : AppState) : ui_step s (onPlay s)
| step_onPause (s : AppState) : ui_step s (onPause s)
| step_clock (t : Q) (s : AppState) : ui_step s (elapse t s)
| step_toggleFavorite (i : string) (s : AppState) :
    ui_step s (fst (toggleFavorite i s))
| step_catalog (l : list Track) (s : AppState) : ui_step s (set_tracks l s).

(** Reachable from a state without an active track (the initial
    [useState(null)]). *)
Inductive reachable : AppState -> Prop :=
| reach_init (s : AppState) : activeTrackId s = None -> reachable s
| reach_step (s s' : AppState) : reachable s -> ui_step s s' -> reachable s'.

(** The cursor, when set, points into the current queue. *)
Definition cursor_in_queue (s : AppState) : Prop :=
  forall a, activeTrackId s = Some a -> In a (ids (currentQueue s)).

(** Every playlist lists each track id at most once. *)
Definition playlists_unique (pls : list Playlist.t) : Prop :=
  Forall (fun pl => NoDup (ids (Playlist.tracks pl))) pls.

(** A catalog and playlists for the examples. *)
Definition mine (i : string) (fav : bool) (owner : string) : Track :=
  mkTrack i (Some owner) ("Title " ++ i) "Artist" "120" fav "cover.png"
          (Some (i ++ ".mp3")) None (Some "#0d33f2").

Definition catalog : list Track :=
  [mine "A" false "user-1"; mine "B" true "user-2"; mine "C" false "user-2"].

Definition signedIn : AppState :=
  mkApp LIBRARY false catalog (Some "user-1") None false 0 (Js.Fin 0)
        [] (Some (mkAudio "" 0)) None None [] [].

Definition mixes : list Playlist.t :=
  [Playlist.mk "p1" "Morning" [mine "A" false "user-1"];
   Playlist.mk "p2" "Night" []].

(* ------------------------------------------------------------------ *)
(** ** [fetchTracks] and [components/Search.tsx] *)

(** A row of table [tracks]. *)
Record TrackRow : Type := mkTrackRow {
  r_id : string;
  r_user_id : option string;
  r_title : string;
  r_artist : string;
  r_bpm : string;
  r_cover_url : string;
  r_audio_url : option string;
  r_storage_path : option string;
  r_accent_color : option string
}.

(** The mapping of rows to tracks in [fetchTracks]; [favoriteIds] holds
    the [track_id]s of the user's rows in [user_favorites]. *)
Definition mappedTracks (favoriteIds : list string) (data : list TrackRow)
  : list Track :=
  map (fun t =>
         mkTrack (r_id t) (r_user_id t) (r_title t) (r_artist t) (r_bpm t)
                 (includes favoriteIds (r_id t)) (r_cover_url t)
                 (r_audio_url t) (r_storage_path t) (r_accent_color t))
      data.

Module Search.

(** [s.includes(q)] on strings. *)
Definition includes (s q : string) : bool :=
  match String.index 0 q s with
  | Some _ => true
  | None => false
  end.

Section Builtins.

(** [String.prototype.trim] and [String.prototype.toLowerCase]. *)
Variables (trim toLowerCase : string -> string).

(** [filteredTracks]. *)
Definition filteredTracks (catalog : list Track) (searchQuery : string)
  : list Track :=
  if negb (Js.truthy_string (trim searchQuery)) then catalog
  else
    let query := toLowerCase searchQuery in
    filter (fun t =>
              includes (toLowerCase (title t)) query
              || includes (toLowerCase (artist t)) query)
           catalog.

End Builtins.

End Search.

Definition rowsABC : list TrackRow :=
  [mkTrackRow "A" (Some "user-1") "Alpha" "Ann" "120" "a.png"
              (Some "A.mp3") None (Some "#0d33f2");
   mkTrackRow "B" (Some "user-2") "Beta" "Bob" "90" "b.png"
              (Some "B.mp3") None (Some "#ff0055")].


(** [l1] is [l2] with some elements left out: the elements that stay keep
    the order they have in [l2]. *)
Inductive subseq {A : Type} : list A -> list A -> Prop :=
| subseq_nil : subseq [] []
| subseq_skip (x : A) (l1 l2 : list A) : subseq l1 l2 -> subseq l1 (x :: l2)
| subseq_keep (x : A) (l1 l2 : list A) :
    subseq l1 l2 -> subseq (x :: l1) (x :: l2).

(* ------------------------------------------------------------------ *)
(** ** Arrays: [findIndex], indexing and [filter] *)

Section Arrays.

Context {A : Type}.

Lemma findIndex_range (p : A -> bool) (arr : list A) :
  (-1 <= Js.findIndex p arr < Z.of_nat (length arr))%Z.
Proof.
  induction arr as [|x rest IH]; simpl; [lia|].
  destruct (p x); [lia|].
  destruct (Z.ltb_spec (Js.findIndex p rest) 0); lia.
Qed.

Lemma findIndex_none (p : A -> bool) (arr : list A) :
  (forall x, In x arr -> p x = false) -> Js.findIndex p arr = (-1)%Z.
Proof.
  induction arr as [|x rest IH]; simpl; intros H; [reflexivity|].
  rewrite (H x (or_introl eq_refl)).
  rewrite IH by (intros y Hy; apply H; now right).
  reflexivity.
Qed.

Lemma findIndex_some (p : A -> bool) (arr : list A) :
  (exists x, In x arr /\ p x = true) ->
  exists y, (0 <= Js.findIndex p arr)%Z
            /\ nth_error arr (Z.to_nat (Js.findIndex p arr)) = Some y
            /\ p y = true.
Proof.
  induction arr as [|x rest IH]; simpl; intros [z [Hin Hz]]; [contradiction|].
  destruct (p x) eqn:Hx.
  - exists x. repeat split; [lia|assumption].
  - destruct Hin as [->|Hin]; [congruence|].
    destruct IH as [y [H0 [Hn Hy]]]; [now exists z|].
    exists y. destruct (Z.ltb_spec (Js.findIndex p rest) 0); [lia|].
    repeat split; [lia| |assumption].
    replace (Z.to_nat (Js.findIndex p rest + 1))
      with (S (Z.to_nat (Js.findIndex p rest))) by lia.
    exact Hn.
Qed.

(** The first hit is the only hit when no earlier element satisfies [p]. *)
Lemma findIndex_first (p : A -> bool) (arr : list A) (i : nat) (y : A) :
  nth_error arr i = Some y -> p y = true ->
  (forall j z, (j < i)%nat -> nth_error arr j = Some z -> p z = false) ->
  Js.findIndex p arr = Z.of_nat i.
Proof.
  revert i; induction arr as [|x rest IH]; intros [|i] Hn Hy Hbefore;
    simpl in *; try discriminate.
  - injection Hn as ->. now rewrite Hy.
  - rewrite (Hbefore 0%nat x) by (simpl; (lia || reflexivity)).
    rewrite (IH i Hn Hy).
    + destruct (Z.ltb_spec (Z.of_nat i) 0); lia.
    + intros j z Hj Hz. apply (Hbefore (S j) z); [lia|exact Hz].
Qed.

Lemma at_index_nat (arr : list A) (i : nat) :
  Js.at_index arr (Z.of_nat i) = nth_error arr i.
Proof.
  unfold Js.at_index.
  destruct (Z.ltb_spec (Z.of_nat i) 0); [lia|].
  now rewrite Nat2Z.id.
Qed.

Lemma at_index_in_range (arr : list A) (i : Z) :
  (0 <= i < Z.of_nat (length arr))%Z ->
  exists x, Js.at_index arr i = Some x /\ In x arr.
Proof.
  intros Hi. unfold Js.at_index.
  destruct (Z.ltb_spec i 0); [lia|].
  destruct (nth_error arr (Z.to_nat i)) as [x|] eqn:E.
  - exists x; split; [reflexivity|]. eapply nth_error_In; eassumption.
  - apply nth_error_None in E. lia.
Qed.

End Arrays.

(* ------------------------------------------------------------------ *)
(** ** Queues: lookups by track id *)

Lemma has_id_true (x : string) (t : Track) : has_id x t = true <-> id t = x.
Proof. unfold has_id. apply String.eqb_eq. Qed.

Lemma has_id_false (x : string) (t : Track) : has_id x t = false <-> id t <> x.
Proof. unfold has_id. apply String.eqb_neq. Qed.

Lemma other_id_true (x : string) (t : Track) : other_id x t = true <-> id t <> x.
Proof.
  unfold other_id. rewrite negb_true_iff. apply String.eqb_neq.
Qed.

Lemma in_ids (x : string) (q : list Track) :
  In x (ids q) <-> exists t, In t q /\ id t = x.
Proof.
  unfold ids. rewrite in_map_iff. split; intros [t [H1 H2]]; exists t; tauto.
Qed.

Lemma findIndex_absent (a : string) (q : list Track) :
  ~ In a (ids q) -> Js.findIndex (has_id a) q = (-1)%Z.
Proof.
  intros H. apply findIndex_none. intros t Ht.
  apply has_id_false. intros E. apply H. apply in_ids. now exists t.
Qed.

Lemma findIndex_present (a : string) (q : list Track) :
  In a (ids q) ->
  exists t, (0 <= Js.findIndex (has_id a) q)%Z
            /\ nth_error q (Z.to_nat (Js.findIndex (has_id a) q)) = Some t
            /\ id t = a.
Proof.
  intros H. apply in_ids in H. destruct H as [t [Ht E]].
  destruct (findIndex_some (has_id a) q) as [y [H0 [Hn Hy]]].
  - exists t. split; [assumption|]. now apply has_id_true.
  - exists y. repeat split; try assumption. now apply has_id_true.
Qed.

(** With unique ids, [findIndex] recovers the position of a member. *)
Lemma findIndex_unique (q : list Track) (i : nat) (t : Track) :
  NoDup (ids q) -> nth_error q i = Some t ->
  Js.findIndex (has_id (id t)) q = Z.of_nat i.
Proof.
  intros Hnd Hn. apply (findIndex_first _ _ _ t Hn).
  - now apply has_id_true.
  - intros j z Hj Hz. apply has_id_false. intros E.
    assert (Hi : nth_error (ids q) i = Some (id t))
      by (unfold ids; now rewrite nth_error_map, Hn).
    assert (Hj' : nth_error (ids q) j = Some (id t))
      by (unfold ids; rewrite nth_error_map, Hz; simpl; now rewrite E).
    assert (Hlt : (j < length (ids q))%nat)
      by (apply nth_error_Some; congruence).
    pose proof (proj1 (NoDup_nth_error (ids q)) Hnd j i Hlt
                  (eq_trans Hj' (eq_sym Hi))).
    lia.
Qed.

Lemma find_has_id_in (x : string) (q : list Track) :
  In x (ids q) -> exists t, find (has_id x) q = Some t /\ id t = x.
Proof.
  intros H. apply in_ids in H. destruct H as [t [Ht E]].
  destruct (find (has_id x) q) as [u|] eqn:F.
  - exists u. split; [reflexivity|].
    apply find_some in F. now apply has_id_true.
  - exfalso. pose proof (find_none _ _ F t Ht) as Hf.
    apply has_id_false in Hf. contradiction.
Qed.

(* ------------------------------------------------------------------ *)
(** ** Frame properties of the helpers *)

(** Case analysis on an innermost scrutinee of the goal. *)
Ltac break_match :=
  match goal with
  | |- context [match ?x with _ => _ end] =>
      lazymatch x with
      | context [match _ with _ => _ end] => fail
      | _ => destruct x eqn:?
      end
  end.

Ltac frame :=
  unfold initAudioEngine, audio_play, incrementPlayCount, addPlaytime;
  repeat (break_match; simpl in * ); try reflexivity; try congruence.

Lemma addPlaytime_frame (env : Env) (s : AppState) :
  activeTrackId (addPlaytime env s) = activeTrackId s
  /\ currentQueue (addPlaytime env s) = currentQueue s
  /\ isShuffle (addPlaytime env s) = isShuffle s
  /\ tracks (addPlaytime env s) = tracks s
  /\ audioRef (addPlaytime env s) = audioRef s.
Proof. repeat split; frame. Qed.

(** Selecting an id that the non-empty current queue contains makes it the
    active id and leaves queue and shuffle flag alone. *)
Lemma handleTrackSelect_member (env : Env) (x : string) (s : AppState) :
  currentQueue s <> [] -> In x (ids (currentQueue s)) ->
  activeTrackId (handleTrackSelect env x None s) = Some x
  /\ currentQueue (handleTrackSelect env x None s) = currentQueue s
  /\ isShuffle (handleTrackSelect env x None s) = isShuffle s.
Proof.
  intros Hne Hin.
  destruct (find_has_id_in x _ Hin) as [t [Hf _]].
  unfold handleTrackSelect, targetQueue.
  destruct (currentQueue s) as [|t0 rest] eqn:Q; [congruence|].
  cbn [length Nat.eqb Nat.ltb Nat.leb]. rewrite Hf.
  destruct (activeTrackId s) as [a|] eqn:Ha.
  - destruct (String.eqb_spec a x) as [->|Hax].
    + repeat split; frame.
    + repeat split; frame.
  - repeat split; frame.
Qed.

(* ------------------------------------------------------------------ *)
(** ** Index arithmetic *)

Lemma floor_scaled_range (r : Q) (n : nat) :
  0 <= r -> r < 1 -> (0 < n)%nat ->
  (0 <= Js.floor_scaled r n < Z.of_nat n)%Z.
Proof.
  intros H0 H1 Hn. unfold Js.floor_scaled.
  assert (Hpos : 0 < inject_Z (Z.of_nat n))
    by (change 0 with (inject_Z 0); rewrite <- Zlt_Qlt; lia).
  split.
  - change 0%Z with (Qfloor 0). apply Qfloor_resp_le.
    apply Qmult_le_0_compat; [assumption|]. now apply Qlt_le_weak.
  - rewrite Zlt_Qlt.
    apply Qle_lt_trans with (r * inject_Z (Z.of_nat n)); [apply Qfloor_le|].
    setoid_replace (inject_Z (Z.of_nat n)) with (1 * inject_Z (Z.of_nat n))
      at 2 by ring.
    now apply Qmult_lt_compat_r.
Qed.

Lemma next_index_range (k n : Z) :
  (0 < n)%Z -> (-1 <= k < n)%Z -> (0 <= Js.rem (k + 1) n < n)%Z.
Proof.
  intros Hn Hk. unfold Js.rem. apply Z.rem_bound_pos; lia.
Qed.

Lemma prev_index_range (k n : Z) :
  (0 < n)%Z -> (-1 <= k < n)%Z -> (0 <= Js.rem (k - 1 + n) n < n)%Z.
Proof.
  intros Hn Hk. unfold Js.rem.
  destruct (Z_lt_le_dec (k - 1 + n) 0) as [Hneg|Hpos].
  - assert (n = 1%Z) by lia. assert (k = (-1)%Z) by lia. subst.
    change (Z.rem (-1 - 1 + 1) 1) with 0%Z. lia.
  - apply Z.rem_bound_pos; lia.
Qed.

(** Stepping forward and then back lands on the index one started from. *)
Lemma prev_of_next_index (i n : Z) :
  (0 <= i < n)%Z -> Js.rem (Js.rem (i + 1) n - 1 + n) n = i.
Proof.
  intros Hi. unfold Js.rem.
  rewrite (Z.rem_mod_nonneg (i + 1) n) by lia.
  destruct (Z.eq_dec (i + 1) n) as [E|E].
  - rewrite E, Z.mod_same by lia.
    rewrite Z.rem_mod_nonneg by lia.
    rewrite Z.mod_small; lia.
  - rewrite (Z.mod_small (i + 1) n) by lia.
    rewrite Z.rem_mod_nonneg by lia.
    replace (i + 1 - 1 + n)%Z with (i + 1 * n)%Z by lia.
    rewrite Z.mod_add by lia. rewrite Z.mod_small; lia.
Qed.

(* ------------------------------------------------------------------ *)
(** ** The chosen id is a queue member *)

Lemma id_at_index_member (q : list Track) (i : Z) :
  (0 <= i < Z.of_nat (length q))%Z ->
  exists x, option_map id (Js.at_index q i) = Some x /\ In x (ids q).
Proof.
  intros Hi. destruct (at_index_in_range q i Hi) as [t [E Ht]].
  exists (id t). rewrite E. split; [reflexivity|].
  apply in_ids. now exists t.
Qed.

Lemma filter_other_empty_head (a : string) (q : list Track) :
  q <> [] -> filter (other_id a) q = [] -> In a (ids q).
Proof.
  destruct q as [|t rest]; [congruence|]. intros _ H. simpl in H.
  destruct (other_id a t) eqn:E; [discriminate|].
  left. unfold other_id in E. apply negb_false_iff in E.
  now apply String.eqb_eq.
Qed.

Lemma shuffle_pick_member (r : Q) (a : string) (q : list Track) :
  0 <= r -> r < 1 -> filter (other_id a) q <> [] ->
  exists t, Js.at_index (filter (other_id a) q)
              (Js.floor_scaled r (length (filter (other_id a) q))) = Some t
            /\ In t q /\ id t <> a.
Proof.
  intros H0 H1 Hne.
  assert (Hlen : (0 < length (filter (other_id a) q))%nat)
    by (destruct (filter (other_id a) q); [congruence|simpl; lia]).
  destruct (at_index_in_range _ _ (floor_scaled_range r _ H0 H1 Hlen))
    as [t [E Ht]].
  exists t. split; [exact E|].
  apply filter_In in Ht. destruct Ht as [Hin Ho].
  split; [assumption|]. now apply other_id_true.
Qed.

Lemma shuffle_choice_member (r : Q) (a : string) (q : list Track) :
  0 <= r -> r < 1 -> q <> [] ->
  exists x,
    (if (0 <? length (filter (other_id a) q))%nat
     then option_map id
            (Js.at_index (filter (other_id a) q)
               (Js.floor_scaled r (length (filter (other_id a) q))))
     else Some a) = Some x
    /\ In x (ids q).
Proof.
  intros H0 H1 Hq.
  destruct (filter (other_id a) q) as [|u others] eqn:F.
  - simpl. exists a. split; [reflexivity|].
    now apply filter_other_empty_head.
  - destruct (shuffle_pick_member r a q H0 H1) as [t [E [Hin _]]];
      [rewrite F; discriminate|].
    rewrite F in E. exists (id t).
    change (0 <? length (u :: others))%nat with true. cbv iota.
    rewrite E. split; [reflexivity|]. apply in_ids. now exists t.
Qed.

Lemma length_pos_Z {A : Type} (q : list A) :
  q <> [] -> (0 < Z.of_nat (length q))%Z.
Proof. destruct q; [congruence|simpl; lia]. Qed.

Lemma nextTrackId_member (env : Env) (sh : bool) (a : string) (q : list Track) :
  0 <= random env -> random env < 1 -> q <> [] ->
  exists x, nextTrackId env sh a q = Some x /\ In x (ids q).
Proof.
  intros H0 H1 Hq. unfold nextTrackId. destruct sh.
  - now apply shuffle_choice_member.
  - apply id_at_index_member. apply next_index_range.
    + now apply length_pos_Z.
    + apply findIndex_range.
Qed.

Lemma prevTrackId_member (env : Env) (sh : bool) (a : string) (q : list Track) :
  0 <= random env -> random env < 1 -> q <> [] ->
  exists x, prevTrackId env sh a q = Some x /\ In x (ids q).
Proof.
  intros H0 H1 Hq. unfold prevTrackId. destruct sh.
  - now apply shuffle_choice_member.
  - apply id_at_index_member. apply prev_index_range.
    + now apply length_pos_Z.
    + apply findIndex_range.
Qed.

(* ------------------------------------------------------------------ *)
(** ** From the chosen id to the new state *)

Lemma Qlt_bool_false (a b : Q) : b <= a -> Js.Qlt_bool a b = false.
Proof.
  intros H. unfold Js.Qlt_bool. apply negb_false_iff. now apply Qle_bool_iff.
Qed.

Lemma Qlt_bool_true (a b : Q) : a < b -> Js.Qlt_bool a b = true.
Proof.
  intros H. unfold Js.Qlt_bool. apply negb_true_iff.
  destruct (Qle_bool b a) eqn:E; [|reflexivity].
  apply Qle_bool_iff in E. exfalso. now apply (Qlt_not_le a b).
Qed.

Lemma guard_passes (a : string) (s : AppState) :
  a <> "" -> currentQueue s <> [] ->
  negb (Js.truthy_string a) || (length (currentQueue s) =? 0)%nat = false.
Proof.
  intros Ha Hq. unfold Js.truthy_string.
  apply String.eqb_neq in Ha. rewrite Ha.
  destruct (currentQueue s); [congruence|reflexivity].
Qed.

Lemma handleNext_selects (env : Env) (s : AppState) (a x : string) :
  activeTrackId s = Some a -> a <> "" -> currentQueue s <> [] ->
  nextTrackId env (isShuffle s) a (currentQueue s) = Some x ->
  In x (ids (currentQueue s)) ->
  exists s', handleNext env s = Js.Done s'
             /\ activeTrackId s' = Some x
             /\ currentQueue s' = currentQueue s
             /\ isShuffle s' = isShuffle s.
Proof.
  intros Ha Hne Hq Hx Hin. unfold handleNext.
  rewrite Ha, (guard_passes a s Hne Hq), Hx.
  destruct (addPlaytime_frame env s) as [_ [Eq [Es _]]].
  destruct (handleTrackSelect_member env x (addPlaytime env s))
    as [H1 [H2 H3]]; [now rewrite Eq|now rewrite Eq|].
  eexists; split; [reflexivity|].
  rewrite H1, H2, H3, Eq, Es. auto.
Qed.

Lemma handlePrevious_selects (env : Env) (s : AppState) (a x : string) :
  activeTrackId s = Some a -> a <> "" -> currentQueue s <> [] ->
  within_3s s ->
  prevTrackId env (isShuffle s) a (currentQueue s) = Some x ->
  In x (ids (currentQueue s)) ->
  exists s', handlePrevious env s = Js.Done s'
             /\ activeTrackId s' = Some x
             /\ currentQueue s' = currentQueue s
             /\ isShuffle s' = isShuffle s.
Proof.
  intros Ha Hne Hq Ht Hx Hin. unfold handlePrevious.
  rewrite Ha, (guard_passes a s Hne Hq), Hx.
  destruct (handleTrackSelect_member env x s Hq Hin) as [H1 [H2 H3]].
  destruct (audioRef s) as [au|] eqn:Hau.
  - rewrite (Qlt_bool_false 3 (position au)) by (now apply Ht).
    eexists; split; [reflexivity|]. auto.
  - eexists; split; [reflexivity|]. auto.
Qed.

(* ------------------------------------------------------------------ *)
(** ** Queue traversal *)

Lemma elapse_frame (t : Q) (s : AppState) :
  activeTrackId (elapse t s) = activeTrackId s
  /\ currentQueue (elapse t s) = currentQueue s
  /\ isShuffle (elapse t s) = isShuffle s.
Proof. unfold elapse. destruct (audioRef s); repeat split. Qed.

Lemma elapse_within_3s (t : Q) (s : AppState) : t <= 3 -> within_3s (elapse t s).
Proof.
  intros Ht au. unfold elapse. destruct (audioRef s) as [a0|] eqn:E; simpl.
  - intros H. injection H as <-. exact Ht.
  - rewrite E. discriminate.
Qed.





(** Without shuffle and with the active id absent, [findIndex] answers
    [-1]: [handleNext] takes index [0] and [handlePrevious] index
    [length - 2] (index [0] in a queue of one). *)
Lemma nextTrackId_absent (env : Env) (a : string) (t0 : Track)
    (rest : list Track) :
  ~ In a (ids (t0 :: rest)) ->
  nextTrackId env false a (t0 :: rest) = Some (id t0).
Proof.
  intros H. unfold nextTrackId. rewrite (findIndex_absent a _ H).
  unfold Js.rem. change (-1 + 1)%Z with 0%Z. rewrite Z.rem_0_l.
  - reflexivity.
  - simpl length. lia.
Qed.

Lemma prevTrackId_absent (env : Env) (a : string) (t0 : Track)
    (rest : list Track) :
  ~ In a (ids (t0 :: rest)) ->
  prevTrackId env false a (t0 :: rest)
  = Some (id (nth (length (t0 :: rest) - 2) (t0 :: rest) t0)).
Proof.
  intros H. unfold prevTrackId. rewrite (findIndex_absent a _ H).
  destruct rest as [|t1 rest'].
  - reflexivity.
  - set (q := t0 :: t1 :: rest').
    assert (Hlen : (2 <= length q)%nat) by (simpl; lia).
    unfold Js.rem. rewrite Z.rem_small by lia.
    replace (-1 - 1 + Z.of_nat (length q))%Z
      with (Z.of_nat (length q - 2)) by lia.
    rewrite at_index_nat.
    rewrite (nth_error_nth' q t0) by lia.
    reflexivity.
Qed.

(** Without shuffle, from the member at index [i] (ids unique),
    [handleNext] takes the member at [(i + 1) % length]. *)
Lemma nextTrackId_present (env : Env) (a : string) (q : list Track) :
  In a (ids q) ->
  exists t u,
    nth_error q (Z.to_nat (Js.findIndex (has_id a) q)) = Some t
    /\ id t = a
    /\ (0 <= Js.findIndex (has_id a) q < Z.of_nat (length q))%Z
    /\ nth_error q
         (Z.to_nat (Js.rem (Js.findIndex (has_id a) q + 1)
                           (Z.of_nat (length q)))) = Some u
    /\ nextTrackId env false a q = Some (id u)
    /\ In (id u) (ids q).
Proof.
  intros Hin. destruct (findIndex_present a q Hin) as [t [H0 [Hn Ht]]].
  pose proof (findIndex_range (has_id a) q) as Hr.
  assert (Hpos : (0 < Z.of_nat (length q))%Z) by lia.
  pose proof (next_index_range _ _ Hpos
                (conj (proj1 Hr) (proj2 Hr))) as Hj.
  destruct (at_index_in_range q _ Hj) as [u [Eu Hu]].
  exists t, u. repeat split; try assumption; try lia.
  - unfold Js.at_index in Eu.
    destruct (Z.ltb_spec
                (Js.rem (Js.findIndex (has_id a) q + 1)
                        (Z.of_nat (length q))) 0); [lia|exact Eu].
  - unfold nextTrackId. now rewrite Eu.
  - apply in_ids. now exists u.
Qed.

(** C10: for a non-empty queue and either shuffle setting, [handleNext]
    and [handlePrevious] (when it advances, that is within the first three
    seconds) return normally, and the id they make active is the id of a
    member of the current queue, whether or not the previously active id
    was in the queue. *)
Theorem C10_selected_id_is_queue_member (env : Env) (s : AppState)
    (a : string) :
  activeTrackId s = Some a -> a <> "" -> currentQueue s <> [] ->
  0 <= random env -> random env < 1 ->
  (exists s' x, handleNext env s = Js.Done s'
                /\ activeTrackId s' = Some x
                /\ In x (ids (currentQueue s')))
  /\ (within_3s s ->
      exists s' x, handlePrevious env s = Js.Done s'
                   /\ activeTrackId s' = Some x
                   /\ In x (ids (currentQueue s'))).
Proof.
  intros Ha Hne Hq H0 H1. split; [|intros Ht].
  - destruct (nextTrackId_member env (isShuffle s) a _ H0 H1 Hq)
      as [x [Ex Hin]].
    destruct (handleNext_selects env s a x Ha Hne Hq Ex Hin)
      as [s' [E [A [Q _]]]].
    exists s', x. rewrite Q. auto.
  - destruct (prevTrackId_member env (isShuffle s) a _ H0 H1 Hq)
      as [x [Ex Hin]].
    destruct (handlePrevious_selects env s a x Ha Hne Hq Ht Ex Hin)
      as [s' [E [A [Q _]]]].
    exists s', x. rewrite Q. auto.
Qed.

Lemma Qle_1_3 : 1 <= 3.
Proof. discriminate. Defined.

Lemma playing_within_3s (a : string) (sh : bool) :
  within_3s (playing a sh 1).
Proof.
  intros au H. injection H as <-. exact Qle_1_3.
Defined.

Lemma C10_witness :
  (exists s' x, handleNext envHalf (playing "X" true 1) = Js.Done s'
                /\ activeTrackId s' = Some x
                /\ In x (ids (currentQueue s')))
  /\ (exists s' x, handlePrevious envHalf (playing "X" true 1) = Js.Done s'
                   /\ activeTrackId s' = Some x
                   /\ In x (ids (currentQueue s'))).
Proof.
  assert (Hx : "X" <> "") by discriminate.
  assert (Hq : currentQueue (playing "X" true 1) <> []) by discriminate.
  assert (H0 : 0 <= random envHalf) by discriminate.
  assert (H1 : random envHalf < 1) by reflexivity.
  pose proof (C10_selected_id_is_queue_member envHalf (playing "X" true 1)
                "X" eq_refl Hx Hq H0 H1) as [Hn Hp].
  split; [exact Hn|exact (Hp (playing_within_3s "X" true))].
Defined.


Lemma NoDup_ABC : NoDup (ids queueABC).
Proof.
  repeat constructor; simpl; intuition discriminate.
Defined.


(** C6: with shuffle off, unique non-empty ids and the active track in the
    queue, [handleNext] followed by [handlePrevious] (called while the new
    track has played at most three seconds) makes the original track
    active again, the wrap-around at the end of the queue included. *)
Theorem C6_next_then_previous (env1 env2 : Env) (s : AppState) (a : string) :
  activeTrackId s = Some a -> isShuffle s = false ->
  In a (ids (currentQueue s)) -> NoDup (ids (currentQueue s)) ->
  ~ In "" (ids (currentQueue s)) ->
  exists s1,
    handleNext env1 s = Js.Done s1
    /\ forall t, t <= 3 ->
       exists s2, handlePrevious env2 (elapse t s1) = Js.Done s2
                  /\ activeTrackId s2 = Some a.
Proof.
  intros Ha Hsh Hin Hnd Hempty.
  assert (Hne : a <> "") by (intros ->; contradiction).
  assert (Hq : currentQueue s <> [])
    by (intros E; rewrite E in Hin; contradiction).
  destruct (nextTrackId_present env1 a _ Hin)
    as [t [u [Ht [Hid [Hi [Hu [Ex Hx]]]]]]].
  destruct (handleNext_selects env1 s a (id u) Ha Hne Hq) as [s1 [E [A [Q S]]]];
    [rewrite Hsh; exact Ex|exact Hx|].
  exists s1. split; [exact E|]. intros tm Htm.
  destruct (elapse_frame tm s1) as [A' [Q' S']].
  assert (Hu' : id u <> "") by (intros E0; rewrite E0 in Hx; contradiction).
  destruct (handlePrevious_selects env2 (elapse tm s1) (id u) a)
    as [s2 [E2 [A2 _]]].
  - now rewrite A'.
  - exact Hu'.
  - now rewrite Q', Q.
  - now apply elapse_within_3s.
  - rewrite S', S, Hsh, Q', Q. unfold prevTrackId.
    pose proof (next_index_range _ _ (length_pos_Z _ Hq)
                  (conj (proj1 (findIndex_range (has_id a) (currentQueue s)))
                        (proj2 (findIndex_range (has_id a) (currentQueue s)))))
      as Hj.
    rewrite (findIndex_unique _ _ u Hnd Hu).
    rewrite Z2Nat.id by lia.
    rewrite prev_of_next_index by exact Hi.
    unfold Js.at_index.
    destruct (Z.ltb_spec (Js.findIndex (has_id a) (currentQueue s)) 0);
      [lia|].
    rewrite Ht. simpl. now rewrite Hid.
  - now rewrite Q', Q.
  - exists s2. auto.
Qed.

Lemma C6_witness :
  exists s1,
    handleNext env0 (playing "C" false 1) = Js.Done s1
    /\ forall t, t <= 3 ->
       exists s2, handlePrevious env0 (elapse t s1) = Js.Done s2
                  /\ activeTrackId s2 = Some "C".
Proof.
  assert (Hin : In "C" (ids (currentQueue (playing "C" false 1))))
    by (right; right; left; reflexivity).
  assert (Hempty : ~ In "" (ids (currentQueue (playing "C" false 1))))
    by (simpl; intuition discriminate).
  exact (C6_next_then_previous env0 env0 (playing "C" false 1) "C"
           eq_refl eq_refl Hin NoDup_ABC Hempty).
Defined.

(** C1 (as the code has it): with shuffle off and the active id absent
    from a non-empty queue, there is no fall-back to the active track:
    [handleNext] makes the first queue member active, and [handlePrevious]
    (within three seconds) the member at index [length - 2], which is the
    first one in a queue of one or two.  Either way the new active id is a
    queue member, hence not the id that was active. *)
Theorem C1_absent_active_moves_into_queue (env : Env) (s : AppState)
    (a : string) (t0 : Track) (rest : list Track) :
  activeTrackId s = Some a -> a <> "" -> isShuffle s = false ->
  currentQueue s = t0 :: rest -> ~ In a (ids (currentQueue s)) ->
  (cursor_after (handleNext env s) = Some (id t0) /\ id t0 <> a)
  /\ (within_3s s ->
      cursor_after (handlePrevious env s)
      = Some (id (nth (length (currentQueue s) - 2) (currentQueue s) t0))
      /\ id (nth (length (currentQueue s) - 2) (currentQueue s) t0) <> a).
Proof.
  intros Ha Hne Hsh Hq Habs.
  assert (Hq' : currentQueue s <> []) by (rewrite Hq; discriminate).
  assert (Hmem : forall x, In x (ids (currentQueue s)) -> x <> a)
    by (intros x Hx ->; contradiction).
  split; [|intros Ht].
  - assert (Hin : In (id t0) (ids (currentQueue s)))
      by (rewrite Hq; left; reflexivity).
    destruct (handleNext_selects env s a (id t0) Ha Hne Hq')
      as [s' [E [A _]]];
      [rewrite Hsh, Hq; apply nextTrackId_absent; now rewrite <- Hq
      |exact Hin|].
    rewrite E. split; [exact A|now apply Hmem].
  - set (p := nth (length (currentQueue s) - 2) (currentQueue s) t0).
    assert (Hin : In (id p) (ids (currentQueue s))).
    { apply in_ids. exists p. split; [|reflexivity].
      apply nth_In. rewrite Hq. simpl. lia. }
    destruct (handlePrevious_selects env s a (id p) Ha Hne Hq' Ht)
      as [s' [E [A _]]];
      [|exact Hin|].
    + rewrite Hsh. unfold p. rewrite Hq.
      apply prevTrackId_absent. now rewrite <- Hq.
    + rewrite E. split; [exact A|now apply Hmem].
Qed.

Lemma absent_X : ~ In "X" (ids (currentQueue (playing "X" false 1))).
Proof. simpl. intuition discriminate. Defined.

Lemma C1_witness :
  (cursor_after (handleNext env0 (playing "X" false 1)) = Some "A"
   /\ "A" <> "X")
  /\ (cursor_after (handlePrevious env0 (playing "X" false 1)) = Some "B"
      /\ "B" <> "X").
Proof.
  assert (Hx : "X" <> "") by discriminate.
  pose proof (C1_absent_active_moves_into_queue env0 (playing "X" false 1)
                "X" (track "A") [track "B"; track "C"]
                eq_refl Hx eq_refl eq_refl absent_X) as [Hn Hp].
  split; [exact Hn|exact (Hp (playing_within_3s "X" false))].
Defined.

(** C1, counterexample: queue [A,B,C], active id [X] (not in the queue),
    shuffle off, one second played.  Neither [handleNext] nor
    [handlePrevious] keeps [X]. *)
Lemma C1_counterexample :
  ~ falls_back_to_active handleNext env0 (playing "X" false 1)
  /\ ~ falls_back_to_active handlePrevious env0 (playing "X" false 1).
Proof.
  unfold falls_back_to_active. split; vm_compute; discriminate.
Qed.

(* ------------------------------------------------------------------ *)
(** ** Restart, stats reporting and failed starts *)

(** C7: when more than three seconds have played, [handlePrevious] returns
    normally and changes nothing but the element's position: active id,
    queue, shuffle flag, stats row, engine calls and every other state
    variable stay as they were (no stats report, no track selection), the
    bound source is kept, and with an active track and a non-empty queue the
    position is reset to 0. *)
Theorem C7_previous_after_3s_restarts (env : Env) (s : AppState) (au : Audio) :
  audioRef s = Some au -> 3 < position au ->
  exists s',
    handlePrevious env s = Js.Done s'
    /\ activeTrackId s' = activeTrackId s
    /\ currentQueue s' = currentQueue s
    /\ isShuffle s' = isShuffle s
    /\ profiles s' = profiles s
    /\ engine s' = engine s
    /\ isPlaying s' = isPlaying s
    /\ (currentView s', tracks s', session s', currentTime s', duration s',
        audioContextRef s', console s')
       = (currentView s, tracks s, session s, currentTime s, duration s,
          audioContextRef s, console s)
    /\ option_map src (audioRef s') = Some (src au)
    /\ (Js.truthy_opt (activeTrackId s) = true -> currentQueue s <> [] ->
        audioRef s' = Some (mkAudio (src au) 0)).
Proof.
  intros Hau Hpos. unfold handlePrevious.
  destruct (activeTrackId s) as [a|] eqn:Ha.
  - destruct (negb (Js.truthy_string a) || (length (currentQueue s) =? 0)%nat)
      eqn:G.
    + exists s. rewrite Ha, Hau. simpl. repeat split; try reflexivity.
      intros Ht Hq. exfalso. apply orb_true_iff in G. destruct G as [G|G].
      * rewrite Ht in G. discriminate.
      * destruct (currentQueue s); [congruence|discriminate].
    + rewrite Hau, (Qlt_bool_true 3 (position au) Hpos).
      eexists. split; [reflexivity|]. simpl. rewrite Ha.
      repeat split; reflexivity.
  - exists s. rewrite Ha, Hau. simpl. repeat split; try reflexivity.
    discriminate.
Qed.

Lemma C7_witness :
  exists s',
    handlePrevious env0 (playing "B" false 42) = Js.Done s'
    /\ activeTrackId s' = Some "B"
    /\ currentQueue s' = queueABC
    /\ isShuffle s' = false
    /\ profiles s' = profiles (playing "B" false 42)
    /\ engine s' = []
    /\ audioRef s' = Some (mkAudio "B.mp3" 0).
Proof.
  assert (Hpos : 3 < 42) by reflexivity.
  destruct (C7_previous_after_3s_restarts env0 (playing "B" false 42)
              (mkAudio "B.mp3" 42) eq_refl Hpos)
    as [s' [E [A [Q [S [P [G [_ [_ [_ R]]]]]]]]]].
  exists s'. repeat split; try assumption.
  apply R; [reflexivity|discriminate].
Defined.

Lemma handleTrackSelect_playtime (env : Env) (x : string)
    (queue : option (list Track)) (s : AppState) :
  playtime (handleTrackSelect env x queue s) = playtime s.
Proof.
  unfold handleTrackSelect, playtime. frame.
  all: match goal with H : profiles _ = _ |- _ => now rewrite H end.
Qed.

Lemma addPlaytime_reports_duration (env : Env) (s : AppState) (p : Profile) :
  Js.truthy_opt (session s) = true -> Js.gt0 (duration s) = true ->
  stats env = Answered -> profiles s = Some p ->
  playtime (addPlaytime env s)
  = Some (Some (Js.add (Js.or0 (total_playtime p)) (duration s))).
Proof.
  intros Hs Hd Hst Hp. unfold addPlaytime, playtime.
  now rewrite Hs, Hd, Hst, Hp.
Qed.

(** What the handlers write to the stats row: with an active track, a
    non-empty queue, a signed-in user whose stats row exists and answers,
    and a known duration greater than 0, [handleNext] adds the state
    variable [duration] to the cumulative playtime; [handlePrevious] never
    changes the cumulative playtime. *)
Theorem C2_next_reports_duration (env : Env) (s : AppState) (a : string)
    (p : Profile) :
  activeTrackId s = Some a -> a <> "" -> currentQueue s <> [] ->
  0 <= random env -> random env < 1 ->
  Js.truthy_opt (session s) = true -> Js.gt0 (duration s) = true ->
  stats env = Answered -> profiles s = Some p ->
  (exists s', handleNext env s = Js.Done s'
              /\ playtime s'
                 = Some (Some (Js.add (Js.or0 (total_playtime p))
                                      (duration s))))
  /\ (exists s', handlePrevious env s = Js.Done s'
                 /\ playtime s' = playtime s).
Proof.
  intros Ha Hne Hq H0 H1 Hs Hd Hst Hp. split.
  - unfold handleNext. rewrite Ha, (guard_passes a s Hne Hq).
    destruct (nextTrackId_member env (isShuffle s) a _ H0 H1 Hq)
      as [x [Ex _]].
    rewrite Ex. eexists. split; [reflexivity|].
    rewrite handleTrackSelect_playtime.
    now apply addPlaytime_reports_duration.
  - unfold handlePrevious. rewrite Ha, (guard_passes a s Hne Hq).
    destruct (prevTrackId_member env (isShuffle s) a _ H0 H1 Hq)
      as [x [Ex _]].
    rewrite Ex.
    destruct (audioRef s) as [au|];
      [destruct (Js.Qlt_bool 3 (position au))|];
      eexists; (split; [reflexivity|]);
      try apply handleTrackSelect_playtime; reflexivity.
Qed.

Lemma C2_witness :
  (exists s', handleNext env0 (playing "A" false 10) = Js.Done s'
              /\ playtime s' = Some (Some (Js.add (Js.Fin 1000) (Js.Fin 200))))
  /\ (exists s', handlePrevious env0 (playing "A" false 10) = Js.Done s'
                 /\ playtime s' = Some (Some (Js.Fin 1000))).
Proof.
  assert (Ha : "A" <> "") by discriminate.
  assert (Hq : currentQueue (playing "A" false 10) <> []) by discriminate.
  assert (H0 : 0 <= random env0) by discriminate.
  assert (H1 : random env0 < 1) by reflexivity.
  exact (C2_next_reports_duration env0 (playing "A" false 10) "A"
           (mkProfile (Some 7%Z) (Some (Js.Fin 1000)))
           eq_refl Ha Hq H0 H1 eq_refl eq_refl eq_refl eq_refl).
Defined.

(** Track [A] of 200 seconds, 10 seconds played, total 1000 so far: the
    total after [handleNext] is not 1010. *)
Lemma C2_counterexample : ~ reports_elapsed env0 (playing "A" false 10).
Proof.
  intros H.
  specialize (H (mkAudio "A.mp3" 10)
                (mkProfile (Some 7%Z) (Some (Js.Fin 1000)))
                _ eq_refl eq_refl eq_refl).
  vm_compute in H. discriminate.
Qed.

Lemma initAudioEngine_frame (s : AppState) :
  activeTrackId (initAudioEngine s) = activeTrackId s
  /\ isPlaying (initAudioEngine s) = isPlaying s
  /\ audioRef (initAudioEngine s) = audioRef s
  /\ engine (initAudioEngine s) = engine s
  /\ console (initAudioEngine s) = console s
  /\ session (initAudioEngine s) = session s
  /\ profiles (initAudioEngine s) = profiles s.
Proof.
  unfold initAudioEngine.
  destruct (audioContextRef s) as [[|]|] eqn:C; simpl; rewrite ?C;
    try (repeat split; reflexivity).
  destruct (audioRef s) eqn:R; simpl; rewrite ?C; repeat split; congruence.
Qed.

Lemma incrementPlayCount_frame (env : Env) (s : AppState) :
  activeTrackId (incrementPlayCount env s) = activeTrackId s
  /\ isPlaying (incrementPlayCount env s) = isPlaying s
  /\ audioRef (incrementPlayCount env s) = audioRef s
  /\ engine (incrementPlayCount env s) = engine s
  /\ (forall m, In m (console s) -> In m (console (incrementPlayCount env s))).
Proof.
  unfold incrementPlayCount.
  destruct (Js.truthy_opt (session s)), (stats env), (profiles s); simpl;
    repeat split; try reflexivity; intros m Hm; try assumption;
    apply in_or_app; now left.
Qed.

(** [togglePlay] with a mounted element and an active track. *)
Lemma togglePlay_active (env : Env) (s : AppState) (x : string) (au : Audio) :
  audioRef s = Some au -> activeTrackId s = Some x -> x <> "" ->
  activeTrackId (togglePlay env s) = Some x
  /\ isPlaying (togglePlay env s) = negb (isPlaying s)
  /\ audioRef (togglePlay env s) = Some au
  /\ engine (togglePlay env s)
     = (engine s ++ [if isPlaying s then Pause
                     else Play (src au) (playOk env)])%list.
Proof.
  intros Hau Ha Hx. unfold togglePlay.
  destruct (initAudioEngine_frame s) as [A [P [R [E _]]]].
  rewrite R, Hau, Ha. unfold Js.truthy_opt, Js.truthy_string.
  apply String.eqb_neq in Hx. rewrite Hx. simpl.
  destruct (isPlaying s) eqn:Pl; simpl.
  - rewrite A, R, E. auto.
  - unfold audio_play. rewrite R, Hau.
    destruct (playOk env); simpl; rewrite A, R, E; auto.
Qed.

(** C3 (as the code has it): when [play()] fails for a newly selected
    track, the failure is only logged; the track becomes the active one,
    its source stays bound, and [isPlaying] is set to [true] all the same.
    No re-selection is needed to retry, but the first [togglePlay] issues
    [pause()] and clears the flag; the [togglePlay] after it calls [play()]
    on the same source. *)
Theorem C3_failed_start_then_toggle (env env2 env3 : Env) (x url : string)
    (queue : option (list Track)) (s : AppState) (t : Track) (au : Audio) :
  playOk env = false ->
  find (has_id x) (targetQueue queue s) = Some t ->
  audioUrl t = Some url -> url <> "" -> x <> "" ->
  activeTrackId s <> Some x -> audioRef s = Some au ->
  let s1 := handleTrackSelect env x queue s in
  let s2 := togglePlay env2 s1 in
  let s3 := togglePlay env3 s2 in
  (activeTrackId s1 = Some x
   /\ isPlaying s1 = true
   /\ audioRef s1 = Some (mkAudio url 0)
   /\ engine s1 = (engine s ++ [Play url false])%list
   /\ In "Playback failed:" (console s1))
  /\ (activeTrackId s2 = Some x
      /\ isPlaying s2 = false
      /\ audioRef s2 = Some (mkAudio url 0)
      /\ engine s2 = (engine s1 ++ [Pause])%list)
  /\ (activeTrackId s3 = Some x
      /\ isPlaying s3 = true
      /\ engine s3 = (engine s2 ++ [Play url (playOk env3)])%list).
Proof.
  intros Hfail Hfind Hurl Hu Hx Hact Hau s1 s2 s3.
  assert (Ht : Js.truthy_opt (audioUrl t) = true).
  { rewrite Hurl. unfold Js.truthy_opt, Js.truthy_string.
    apply String.eqb_neq in Hu. now rewrite Hu. }
  assert (Hsel : match activeTrackId s with
                 | Some a => a =? x
                 | None => false
                 end = false).
  { destruct (activeTrackId s) as [a|]; [|reflexivity].
    apply String.eqb_neq. congruence. }
  assert (H1 : activeTrackId s1 = Some x
               /\ isPlaying s1 = true
               /\ audioRef s1 = Some (mkAudio url 0)
               /\ engine s1 = (engine s ++ [Play url false])%list
               /\ In "Playback failed:" (console s1)).
  { subst s1. unfold handleTrackSelect. rewrite Hfind, Hsel.
    destruct (initAudioEngine_frame s) as [_ [_ [R [E _]]]].
    set (sq := match queue with
               | Some q => set_currentQueue q (initAudioEngine s)
               | None =>
                   if (length (currentQueue s) =? 0)%nat
                   then set_currentQueue (tracks s) (initAudioEngine s)
                   else initAudioEngine s
               end).
    assert (Rq : audioRef sq = Some au /\ engine sq = engine s).
    { subst sq. destruct queue; [|destruct (length (currentQueue s) =? 0)%nat];
        simpl; rewrite R, E; auto. }
    destruct Rq as [Rq Eq].
    cbn [audioRef set_activeTrackId]. rewrite Rq, Ht, Hurl.
    match goal with
    | |- context [incrementPlayCount env ?st] =>
        destruct (incrementPlayCount_frame env st) as [A [P [R' [E' C']]]]
    end.
    cbn [activeTrackId isPlaying audioRef engine console set_currentView].
    rewrite A, P, R', E'.
    split; [|split; [|split; [|split; [|apply C']]]];
      unfold audio_play; cbn [audioRef set_audioRef src]; rewrite Hfail;
      simpl; rewrite ?Eq; try reflexivity.
    apply in_or_app. right. now left. }
  destruct H1 as [A1 [P1 [R1 [E1 C1]]]].
  destruct (togglePlay_active env2 s1 x _ R1 A1 Hx) as [A2 [P2 [R2 E2]]].
  fold s2 in A2, P2, R2, E2. rewrite P1 in P2, E2. simpl in P2, E2.
  destruct (togglePlay_active env3 s2 x _ R2 A2 Hx) as [A3 [P3 [_ E3]]].
  fold s3 in A3, P3, E3. rewrite P2 in P3, E3. simpl in P3, E3.
  repeat split; assumption.
Qed.

Lemma C3_witness :
  let s1 := handleTrackSelect envFail "A" None idle in
  let s2 := togglePlay env0 s1 in
  let s3 := togglePlay env0 s2 in
  (activeTrackId s1 = Some "A"
   /\ isPlaying s1 = true
   /\ audioRef s1 = Some (mkAudio "A.mp3" 0)
   /\ engine s1 = [Play "A.mp3" false]
   /\ In "Playback failed:" (console s1))
  /\ (activeTrackId s2 = Some "A"
      /\ isPlaying s2 = false
      /\ audioRef s2 = Some (mkAudio "A.mp3" 0)
      /\ engine s2 = (engine s1 ++ [Pause])%list)
  /\ (activeTrackId s3 = Some "A"
      /\ isPlaying s3 = true
      /\ engine s3 = (engine s2 ++ [Play "A.mp3" true])%list).
Proof.
  assert (Hu : "A.mp3" <> "") by discriminate.
  assert (Hx : "A" <> "") by discriminate.
  assert (Hact : activeTrackId idle <> Some "A") by discriminate.
  exact (C3_failed_start_then_toggle envFail env0 env0 "A" "A.mp3" None idle
           (track "A") (mkAudio "" 0)
           eq_refl eq_refl eq_refl Hu Hx Hact eq_refl).
Defined.

(** C3, counterexample: nothing selected yet, the user picks track [A] and
    [play()] is rejected.  The controller is not paused: [isPlaying] is
    [true]. *)
Lemma C3_counterexample : ~ paused_then_retries envFail "A" "A.mp3" idle.
Proof.
  unfold paused_then_retries. intros [H _]. vm_compute in H. discriminate.
Qed.

(* ------------------------------------------------------------------ *)
(** ** Seeking *)

Lemma clamp_spec_in_range (t d : Q) : 0 <= t -> t <= d -> clamp_spec t d == t.
Proof.
  intros H0 Hd. unfold clamp_spec, Js.max, Js.min.
  destruct (Qle_bool t 0) eqn:E0.
  - apply Qle_bool_iff in E0.
    assert (Ez : t == 0) by (apply Qle_antisym; assumption).
    destruct (Qle_bool 0 d) eqn:E1.
    + symmetry. exact Ez.
    + exfalso. assert (Hle : 0 <= d) by (rewrite <- Ez; exact Hd).
      apply Qle_bool_iff in Hle. congruence.
  - apply Qle_bool_iff in Hd. rewrite Hd. reflexivity.
Qed.

(** C4 (as the code has it): [handleSeek] does not clamp.  With the element
    mounted, the reported position and the position requested from the
    element are the requested time itself, at once; this is
    [min(max(t, 0), duration)] whenever [0 <= t <= duration]. *)
Theorem C4_seek_reports_requested_time (t : Q) (s : AppState) (au : Audio) :
  audioRef s = Some au ->
  currentTime (handleSeek t s) = t
  /\ audioRef (handleSeek t s) = Some (mkAudio (src au) t)
  /\ (forall d, duration s = Js.Fin d -> 0 <= t -> t <= d ->
      currentTime (handleSeek t s) == clamp_spec t d).
Proof.
  intros Hau. unfold handleSeek. rewrite Hau. simpl.
  repeat split. intros d _ H0 Hd. symmetry. now apply clamp_spec_in_range.
Qed.

Lemma C4_witness :
  currentTime (handleSeek 250 (playing "A" false 1)) = 250
  /\ audioRef (handleSeek 250 (playing "A" false 1))
     = Some (mkAudio "A.mp3" 250)
  /\ currentTime (handleSeek 30 (playing "A" false 1)) == clamp_spec 30 200.
Proof.
  assert (H0 : 0 <= 30) by discriminate.
  assert (Hd : 30 <= 200) by discriminate.
  destruct (C4_seek_reports_requested_time 250 (playing "A" false 1)
              (mkAudio "A.mp3" 1) eq_refl) as [T [R _]].
  destruct (C4_seek_reports_requested_time 30 (playing "A" false 1)
              (mkAudio "A.mp3" 1) eq_refl) as [_ [_ K]].
  split; [exact T|]. split; [exact R|].
  exact (K 200 eq_refl H0 Hd).
Defined.

(** C4, counterexample: a track of 200 seconds.  Seeking to -5 reports -5,
    not 0; seeking to 250 reports 250, not 200. *)
Lemma C4_counterexample :
  ~ seek_reports_clamped (-5) 200 (playing "A" false 1)
  /\ ~ seek_reports_clamped 250 200 (playing "A" false 1).
Proof.
  unfold seek_reports_clamped. split; vm_compute; discriminate.
Qed.

(* ------------------------------------------------------------------ *)
(** ** Progress percentage *)

Lemma ratio_full_iff (c q : Q) : ~ q == 0 -> (c / q * 100 == 100 <-> c == q).
Proof.
  intros Hq. split; intros H.
  - assert (E : c == (c / q * 100) * (q / 100)) by (field; exact Hq).
    rewrite E, H. field.
  - rewrite H. field. exact Hq.
Qed.

(** C9 (as the code has it): the progress percentage is 0 when the duration
    is 0 or [NaN] (unknown), also when position and duration are both 0; it
    is 0 for an unbounded duration; and for every finite duration other
    than 0 it is 100 if and only if the position equals the duration. *)
Theorem C9_progress_percentage (c : Q) :
  Stage.progressPercentage c Js.NaN = 0
  /\ (forall q, q == 0 -> Stage.progressPercentage c (Js.Fin q) = 0)
  /\ Stage.progressPercentage c Js.PInf == 0
  /\ (forall q, ~ q == 0 ->
      (Stage.progressPercentage c (Js.Fin q) == 100 <-> c == q)).
Proof.
  unfold Stage.progressPercentage. simpl.
  split; [reflexivity|]. split; [|split; [reflexivity|]].
  - intros q Hq. apply Qeq_bool_iff in Hq. now rewrite Hq.
  - intros q Hq. destruct (Qeq_bool q 0) eqn:E.
    + apply Qeq_bool_iff in E. contradiction.
    + simpl. now apply ratio_full_iff.
Qed.

Lemma C9_witness :
  Stage.progressPercentage 200 (Js.Fin 0) = 0
  /\ Stage.progressPercentage 200 (Js.Fin 200) == 100.
Proof.
  assert (Hz : (0 : Q) == 0) by reflexivity.
  assert (Hd : ~ (200 : Q) == 0) by discriminate.
  destruct (C9_progress_percentage 200) as [_ [Z [_ F]]].
  split; [exact (Z 0 Hz)|].
  exact (proj2 (F 200 Hd) (Qeq_refl 200)).
Defined.

(** C9, counterexample: position 0 and duration 0 are equal, and the
    progress is 0, not 100. *)
Lemma C9_counterexample : ~ full_iff_at_end 0 0.
Proof.
  unfold full_iff_at_end. intros [_ H].
  specialize (H (Qeq_refl 0)). vm_compute in H. discriminate.
Qed.

(* ------------------------------------------------------------------ *)
(** ** Colours of the spectrum bars *)

Lemma max_ge (a b : Q) : a <= Js.max a b /\ b <= Js.max a b.
Proof.
  unfold Js.max. destruct (Qle_bool a b) eqn:E.
  - apply Qle_bool_iff in E. split; [exact E|apply Qle_refl].
  - split; [apply Qle_refl|].
    destruct (Qlt_le_dec a b) as [H|H]; [|exact H].
    apply Qlt_le_weak, Qle_bool_iff in H. congruence.
Qed.

Lemma min_le (a b : Q) : Js.min a b <= a /\ Js.min a b <= b.
Proof.
  unfold Js.min. destruct (Qle_bool a b) eqn:E.
  - apply Qle_bool_iff in E. split; [apply Qle_refl|exact E].
  - split; [|apply Qle_refl].
    destruct (Qlt_le_dec a b) as [H|H]; [|exact H].
    apply Qlt_le_weak, Qle_bool_iff in H. congruence.
Qed.

Lemma ratio_ge_minus_1 (n d : Q) : 0 < d -> - d <= n -> -1 <= n / d.
Proof.
  intros Hd Hn. apply Qle_shift_div_l; [exact Hd|]. lra.
Qed.

Lemma ratio_nonneg (n d : Q) : 0 < d -> 0 <= n -> 0 <= n / d.
Proof.
  intros Hd Hn. apply Qle_shift_div_l; [exact Hd|]. lra.
Qed.

(** The hue computed by [hexToHsl] is never negative. *)
Lemma hexToHsl_hue_nonneg (red green blue : Z) :
  0 <= Stage.h (Stage.hexToHsl red green blue).
Proof.
  unfold Stage.hexToHsl.
  set (r := inject_Z red / 255). set (g := inject_Z green / 255).
  set (b := inject_Z blue / 255).
  destruct (max_ge (Js.max r g) b) as [M1 Mb].
  destruct (max_ge r g) as [Mr Mg].
  destruct (min_le (Js.min r g) b) as [m1 mb].
  destruct (min_le r g) as [mr mg].
  set (mx := Js.max (Js.max r g) b) in *.
  set (mn := Js.min (Js.min r g) b) in *.
  destruct (Qeq_bool mx mn) eqn:E; simpl; [discriminate|].
  assert (Hd : 0 < mx - mn).
  { destruct (Qlt_le_dec mn mx) as [H|H]; [lra|].
    assert (Heq : mx == mn) by (apply Qle_antisym; lra).
    apply Qeq_bool_iff in Heq. congruence. }
  assert (Hgb : -1 <= (g - b) / (mx - mn))
    by (apply ratio_ge_minus_1; [exact Hd|lra]).
  assert (Hbr : -1 <= (b - r) / (mx - mn))
    by (apply ratio_ge_minus_1; [exact Hd|lra]).
  assert (Hrg : -1 <= (r - g) / (mx - mn))
    by (apply ratio_ge_minus_1; [exact Hd|lra]).
  assert (Hscale : forall y, 0 <= y -> 0 <= y / 6 * 360).
  { intros y Hy. setoid_replace (y / 6 * 360) with (y * 60) by field. lra. }
  apply Hscale.
  destruct (Qeq_bool mx r); [|destruct (Qeq_bool mx g);
                               [|destruct (Qeq_bool mx b)]].
  - destruct (Js.Qlt_bool g b) eqn:L.
    + remember ((g - b) / (mx - mn)) as X. lra.
    + assert (Hge : b <= g).
      { unfold Js.Qlt_bool in L. apply negb_false_iff in L.
        now apply Qle_bool_iff in L. }
      assert (0 <= (g - b) / (mx - mn))
        by (apply ratio_nonneg; [exact Hd|lra]).
      remember ((g - b) / (mx - mn)) as X. lra.
  - remember ((b - r) / (mx - mn)) as X. lra.
  - remember ((r - g) / (mx - mn)) as X. lra.
  - apply Qle_refl.
Qed.

Lemma displayBins_pos (bufferLength : nat) :
  (0 < bufferLength)%nat -> 0 < Stage.displayBins bufferLength.
Proof.
  intros H. unfold Stage.displayBins.
  apply Qlt_shift_div_l; [reflexivity|].
  setoid_replace (0 * 2) with (inject_Z 0) by reflexivity.
  rewrite <- Zlt_Qlt. lia.
Qed.

Lemma hue_dividend_nonneg (H : Q) (bufferLength i : nat) :
  0 <= H -> (0 < bufferLength)%nat ->
  0 <= H + (inject_Z (Z.of_nat i) / Stage.displayBins bufferLength * 120 - 60)
       + 360.
Proof.
  intros HH Hb.
  assert (Hr : 0 <= inject_Z (Z.of_nat i) / Stage.displayBins bufferLength).
  { apply ratio_nonneg; [now apply displayBins_pos|].
    change 0 with (inject_Z 0). rewrite <- Zle_Qle. lia. }
  remember (inject_Z (Z.of_nat i) / Stage.displayBins bufferLength) as X.
  lra.
Qed.

(** On a dividend that is not negative, the truncated [%] is the
    mathematical [mod]. *)
Lemma frem_is_mod (x m : Q) : 0 <= x -> 0 < m -> Js.frem x m = mod_spec x m.
Proof.
  intros Hx Hm. unfold Js.frem, mod_spec, Js.trunc.
  assert (H : 0 <= x / m) by (now apply ratio_nonneg).
  apply Qle_bool_iff in H. now rewrite H.
Qed.

Lemma mod_spec_range (x m : Q) :
  0 < m -> 0 <= mod_spec x m /\ mod_spec x m < m.
Proof.
  intros Hm. unfold mod_spec.
  pose proof (Qfloor_le (x / m)) as Hlo.
  pose proof (Qlt_floor (x / m)) as Hhi.
  rewrite inject_Z_plus in Hhi.
  assert (Ex : x == m * (x / m)) by (field; lra).
  remember (x / m) as y. remember (inject_Z (Qfloor y)) as f.
  change (inject_Z 1) with 1 in Hhi.
  assert (H1 : m * f <= m * y) by (apply Qmult_le_l; assumption).
  assert (H2 : m * y < m * (f + 1)) by (apply Qmult_lt_l; assumption).
  split; lra.
Qed.

Lemma mod_spec_comp (x y m : Q) : x == y -> mod_spec x m == mod_spec y m.
Proof.
  intros E. unfold mod_spec.
  assert (F : Qfloor (x / m) = Qfloor (y / m))
    by (apply Qfloor_comp; rewrite E; reflexivity).
  rewrite F, E. reflexivity.
Qed.

(** C8: for bar [i] of [N = displayBins] bars, a base colour whose hue [H]
    is not negative (as [hexToHsl] always returns it) and base lightness
    [L]: the hue of the bar is [(H + (i/N)*120 - 60 + 360) mod 360], a value
    in [[0, 360)]; its lightness is [max(50, L+10) + (magnitude/255)*30];
    its saturation is 90. *)
Theorem C8_bar_colour (base : Stage.Hsl) (bufferLength i : nat)
    (magnitude : Z) :
  0 <= Stage.h base -> (0 < bufferLength)%nat ->
  let N := Stage.displayBins bufferLength in
  let c := Stage.barColor base bufferLength i magnitude in
  Stage.hue c
  == mod_spec (Stage.h base + (inject_Z (Z.of_nat i) / N) * 120 - 60 + 360)
              360
  /\ 0 <= Stage.hue c /\ Stage.hue c < 360
  /\ Stage.lightness c
     == Js.max 50 (Stage.l base + 10) + (inject_Z magnitude / 255) * 30
  /\ Stage.saturation c == 90.
Proof.
  intros HH Hb N c. subst N c. unfold Stage.barColor. simpl.
  pose proof (hue_dividend_nonneg (Stage.h base) bufferLength i HH Hb) as Hx.
  assert (H360 : 0 < 360) by reflexivity.
  rewrite (frem_is_mod _ 360 Hx H360).
  destruct (mod_spec_range
              (Stage.h base
               + (inject_Z (Z.of_nat i) / Stage.displayBins bufferLength * 120
                  - 60) + 360) 360 H360) as [Hlo Hhi].
  split; [apply mod_spec_comp; ring|].
  repeat split; try assumption; reflexivity.
Qed.

Lemma C8_witness :
  Stage.h (Stage.hexToHsl 0 100 200) == 210
  /\ Stage.displayBins 2048 == 1024
  /\ Stage.hue (Stage.barColor (Stage.hexToHsl 0 100 200) 2048 512 255) == 210
  /\ Stage.lightness (Stage.barColor (Stage.hexToHsl 0 100 200) 2048 512 255)
     == 80
  /\ Stage.saturation (Stage.barColor (Stage.hexToHsl 0 100 200) 2048 512 255)
     == 90.
Proof.
  assert (Hb : (0 < 2048)%nat) by lia.
  destruct (C8_bar_colour (Stage.hexToHsl 0 100 200) 2048 512 255
              (hexToHsl_hue_nonneg 0 100 200) Hb) as [Hh [_ [_ [Hl Hs]]]].
  split; [vm_compute; reflexivity|].
  split; [vm_compute; reflexivity|].
  split; [|split; [|exact Hs]].
  - eapply Qeq_trans; [exact Hh|]. vm_compute. reflexivity.
  - eapply Qeq_trans; [exact Hl|]. vm_compute. reflexivity.
Defined.

(* ------------------------------------------------------------------ *)
(** ** Scenarios *)

(** Queue [A,B,C], cursor [A], shuffle off: [handleNext] yields [B], then
    [C], then wraps to [A]. *)
Example next_walks_and_wraps :
  cursor_after (handleNext env0 (playing "A" false 1)) = Some "B"
  /\ cursor_after (handleNext env0 (playing "B" false 1)) = Some "C"
  /\ cursor_after (handleNext env0 (playing "C" false 1)) = Some "A".
Proof. repeat split; vm_compute; reflexivity. Qed.

(** Queue [A,B,C], shuffle off, within three seconds: [handlePrevious]
    from [A] wraps to [C]. *)
Example previous_wraps :
  cursor_after (handlePrevious env0 (playing "A" false 1)) = Some "C"
  /\ cursor_after (handlePrevious env0 (playing "C" false 1)) = Some "B".
Proof. split; vm_compute; reflexivity. Qed.

(** Queue [A], shuffle on: [handleNext] and [handlePrevious] both yield
    [A]. *)
Example shuffle_single_member :
  let s := set_currentQueue [track "A"] (playing "A" true 1) in
  cursor_after (handleNext envHalf s) = Some "A"
  /\ cursor_after (handlePrevious envHalf s) = Some "A".
Proof. split; vm_compute; reflexivity. Qed.

(** Queue [A,B,C], cursor [B], shuffle on: a draw of [0.5] picks the second
    of the two other tracks. *)
Example shuffle_draw_half :
  cursor_after (handleNext envHalf (playing "B" true 1)) = Some "C"
  /\ cursor_after (handleNext env0 (playing "B" true 1)) = Some "A".
Proof. split; vm_compute; reflexivity. Qed.

(** Selecting the track that is already active touches neither the engine
    nor the stats row; it only navigates to the stage. *)
Example reselect_is_engine_noop :
  let s := playing "B" false 1 in
  engine (handleTrackSelect env0 "B" None s) = engine s
  /\ profiles (handleTrackSelect env0 "B" None s) = profiles s
  /\ currentView (handleTrackSelect env0 "B" None s) = STAGE.
Proof. repeat split; vm_compute; reflexivity. Qed.

(** The default accent colour [#0d33f2] has a hue between 229 and 231. *)
Example default_accent_hue :
  229 < Stage.h (Stage.hexToHsl 13 51 242)
  /\ Stage.h (Stage.hexToHsl 13 51 242) < 231.
Proof. split; vm_compute; reflexivity. Qed.

(* ------------------------------------------------------------------ *)
(** ** Track selection *)

(** Case analysis for goals about one handler run on a state given by its
    fields. *)
Ltac crunch :=
  unfold handleTrackSelect, targetQueue, initAudioEngine, audio_play,
    incrementPlayCount, addPlaytime, togglePlay, toggleShuffle;
  simpl;
  repeat (break_match; simpl in *; try discriminate; try congruence);
  try reflexivity; try congruence.

Lemma handleTrackSelect_queue (env : Env) (x : string)
    (queue : option (list Track)) (s : AppState) :
  currentQueue (handleTrackSelect env x queue s) = targetQueue queue s
  /\ tracks (handleTrackSelect env x queue s) = tracks s
  /\ isShuffle (handleTrackSelect env x queue s) = isShuffle s
  /\ session (handleTrackSelect env x queue s) = session s.
Proof.
  destruct s as [? ? ? ? ? ? ? ? cq ? ? ? ? ?], cq, queue;
    repeat split; crunch.
Qed.

Lemma handleTrackSelect_active_cases (env : Env) (x : string)
    (queue : option (list Track)) (s : AppState) :
  activeTrackId (handleTrackSelect env x queue s)
  = match find (has_id x) (targetQueue queue s) with
    | Some _ => Some x
    | None => activeTrackId s
    end.
Proof.
  destruct (find (has_id x) (targetQueue queue s)) eqn:F;
    unfold handleTrackSelect; rewrite F.
  - destruct (activeTrackId s) as [a|] eqn:A;
      [destruct (String.eqb_spec a x) as [->|N]|];
      destruct s as [? ? ? ? ? ? ? ? cq ? ? ? ? ?], cq, queue;
      simpl in *; crunch.
  - destruct s as [? ? ? ? ? ? ? ? cq ? ? ? ? ?], cq, queue; crunch.
Qed.

Lemma sel_false (o : option string) (x : string) :
  o <> Some x ->
  match o with
  | Some a => a =? x
  | None => false
  end = false.
Proof.
  destruct o as [a|]; [|reflexivity]. intros H.
  apply String.eqb_neq. congruence.
Qed.

(** X1: selecting the track that is already active never touches the
    engine, the element, the playing flag, the stats row or the console,
    whatever queue comes with the call; when the track is found in the
    effective queue the view switches to the stage. *)
Theorem X1_reselect_active_keeps_engine (env : Env) (x : string)
    (queue : option (list Track)) (s : AppState) :
  activeTrackId s = Some x ->
  let s' := handleTrackSelect env x queue s in
  engine s' = engine s
  /\ audioRef s' = audioRef s
  /\ isPlaying s' = isPlaying s
  /\ profiles s' = profiles s
  /\ console s' = console s
  /\ activeTrackId s' = Some x
  /\ (forall t, find (has_id x) (targetQueue queue s) = Some t ->
      currentView s' = STAGE).
Proof.
  intros A s'. subst s'. unfold handleTrackSelect. rewrite A, String.eqb_refl.
  destruct (find (has_id x) (targetQueue queue s)) eqn:F;
    destruct s as [? ? ? ? ? ? ? ? cq ? ? ? ? ?], cq, queue;
    simpl in *; subst; repeat split; crunch.
Qed.

Lemma X1_witness :
  engine (handleTrackSelect env0 "B" (Some [track "B"]) (playing "B" false 1))
  = []
  /\ isPlaying
       (handleTrackSelect env0 "B" (Some [track "B"]) (playing "B" false 1))
     = true
  /\ currentView
       (handleTrackSelect env0 "B" (Some [track "B"]) (playing "B" false 1))
     = STAGE.
Proof.
  destruct (X1_reselect_active_keeps_engine env0 "B" (Some [track "B"])
              (playing "B" false 1) eq_refl) as [E [_ [P [_ [_ [_ V]]]]]].
  split; [exact E|]. split; [exact P|]. exact (V (track "B") eq_refl).
Defined.

(** X2: whenever the requested id is found in the effective queue (the
    supplied queue, else the current queue, else the catalog), after
    [handleTrackSelect] that id is the active one, the effective queue is
    the current queue, the active id is a member of it, and the stage is
    shown. *)
Theorem X2_select_found_enters_queue (env : Env) (x : string)
    (queue : option (list Track)) (s : AppState) (t : Track) :
  find (has_id x) (targetQueue queue s) = Some t ->
  let s' := handleTrackSelect env x queue s in
  activeTrackId s' = Some x
  /\ currentQueue s' = targetQueue queue s
  /\ In x (ids (currentQueue s'))
  /\ currentView s' = STAGE.
Proof.
  intros F s'. subst s'.
  destruct (handleTrackSelect_queue env x queue s) as [Q _].
  rewrite handleTrackSelect_active_cases, F, Q.
  split; [reflexivity|]. split; [reflexivity|]. split.
  - apply find_some in F. destruct F as [Hin Hid].
    apply in_ids. exists t. split; [exact Hin|now apply has_id_true].
  - unfold handleTrackSelect. rewrite F.
    destruct s as [? ? ? ? ? ? ? ? cq ? ? ? ? ?], cq, queue; crunch.
Qed.

Lemma X2_witness :
  activeTrackId (handleTrackSelect env0 "C" None idle) = Some "C"
  /\ currentQueue (handleTrackSelect env0 "C" None idle) = queueABC
  /\ In "C" (ids (currentQueue (handleTrackSelect env0 "C" None idle)))
  /\ currentView (handleTrackSelect env0 "C" None idle) = STAGE.
Proof.
  exact (X2_select_found_enters_queue env0 "C" None idle (track "C") eq_refl).
Defined.

(** X3: when the requested id is not in the effective queue nothing is
    selected: active id, engine calls, element, playing flag, stats row and
    view stay as they were.  The queue is still replaced: a supplied queue
    becomes the current queue even though it does not contain the id. *)
Theorem X3_select_unknown_only_swaps_queue (env : Env) (x : string)
    (queue : option (list Track)) (s : AppState) :
  find (has_id x) (targetQueue queue s) = None ->
  let s' := handleTrackSelect env x queue s in
  activeTrackId s' = activeTrackId s
  /\ engine s' = engine s
  /\ audioRef s' = audioRef s
  /\ isPlaying s' = isPlaying s
  /\ profiles s' = profiles s
  /\ currentView s' = currentView s
  /\ currentQueue s' = targetQueue queue s.
Proof.
  intros F s'. subst s'.
  destruct (handleTrackSelect_queue env x queue s) as [Q _].
  rewrite handleTrackSelect_active_cases, F, Q.
  unfold handleTrackSelect. rewrite F.
  destruct s as [? ? ? ? ? ? ? ? cq ? ? ? ? ?], cq, queue;
    repeat split; crunch.
Qed.

Lemma X3_witness :
  activeTrackId
    (handleTrackSelect env0 "A" (Some [track "B"]) (playing "C" false 1))
  = Some "C"
  /\ engine
       (handleTrackSelect env0 "A" (Some [track "B"]) (playing "C" false 1))
     = []
  /\ currentQueue
       (handleTrackSelect env0 "A" (Some [track "B"]) (playing "C" false 1))
     = [track "B"].
Proof.
  destruct (X3_select_unknown_only_swaps_queue env0 "A" (Some [track "B"])
              (playing "C" false 1) eq_refl) as [A [E [_ [_ [_ [_ Q]]]]]].
  split; [exact A|]. split; [exact E|exact Q].
Defined.

(** X4: selecting a track that is not the active one, has an audio URL and
    is found in the effective queue, with the element mounted: the source
    is bound, [play()] is called exactly once, and [isPlaying] is set;
    a signed-in user whose stats row answers gets exactly one more play,
    and when the stats collaborator refuses or throws the row is left
    alone and playback has started all the same. *)
Theorem X4_select_new_track_starts_once (env : Env) (x url : string)
    (queue : option (list Track)) (s : AppState) (t : Track) (au : Audio) :
  find (has_id x) (targetQueue queue s) = Some t ->
  activeTrackId s <> Some x -> audioRef s = Some au ->
  audioUrl t = Some url -> url <> "" ->
  let s' := handleTrackSelect env x queue s in
  engine s' = (engine s ++ [Play url (playOk env)])%list
  /\ audioRef s' = Some (mkAudio url 0)
  /\ isPlaying s' = true
  /\ (forall p, Js.truthy_opt (session s) = true -> stats env = Answered ->
      profiles s = Some p ->
      profiles s' = Some (mkProfile (Some (plays p + 1)%Z) (total_playtime p)))
  /\ (stats env <> Answered -> profiles s' = profiles s).
Proof.
  intros F N R U Hu s'. subst s'.
  assert (Ht : Js.truthy_string url = true)
    by (unfold Js.truthy_string; apply String.eqb_neq in Hu; now rewrite Hu).
  unfold handleTrackSelect. rewrite F, (sel_false _ _ N).
  destruct s as [? ? ? ? ? ? ? ? cq ? ? ? ? ?]. simpl in *. subst.
  unfold initAudioEngine, audio_play, incrementPlayCount, plays. simpl.
  assert (Hcases :
    forall st : AppState,
      audioRef st = Some au -> engine st = engine0 ->
      session st = session0 -> profiles st = profiles0 ->
      let s5 := set_audioRef (Some (mkAudio url 0))
                  (set_activeTrackId (Some x) st) in
      let s' := incrementPlayCount env
                  (set_isPlaying true (audio_play env s5)) in
      engine s' = (engine0 ++ [Play url (playOk env)])%list
      /\ audioRef s' = Some (mkAudio url 0)
      /\ isPlaying s' = true
      /\ (forall p, Js.truthy_opt session0 = true -> stats env = Answered ->
          profiles0 = Some p ->
          profiles s'
          = Some (mkProfile (Some (plays p + 1)%Z) (total_playtime p)))
      /\ (stats env <> Answered -> profiles s' = profiles0)).
  { intros st Ra Ea Sa Pa. destruct st. simpl in *. subst.
    unfold incrementPlayCount, audio_play, plays. simpl.
    destruct (playOk env); simpl;
      (split; [|split; [|split; [|split]]]);
      try (destruct (Js.truthy_opt session0), (stats env), profiles0;
           simpl; reflexivity || congruence);
      intros p Hs Hst Hp; rewrite Hs, Hst, Hp; reflexivity. }
  unfold initAudioEngine. simpl.
  destruct cq, queue, audioContextRef0 as [[|]|]; simpl; rewrite U;
    simpl; rewrite Ht; apply Hcases; reflexivity.
Qed.

Lemma X4_witness :
  engine (handleTrackSelect env0 "B" None (playing "A" false 1))
  = [Play "B.mp3" true]
  /\ audioRef (handleTrackSelect env0 "B" None (playing "A" false 1))
     = Some (mkAudio "B.mp3" 0)
  /\ isPlaying (handleTrackSelect env0 "B" None (playing "A" false 1)) = true
  /\ profiles (handleTrackSelect env0 "B" None (playing "A" false 1))
     = Some (mkProfile (Some 8%Z) (Some (Js.Fin 1000))).
Proof.
  assert (N : activeTrackId (playing "A" false 1) <> Some "B") by discriminate.
  assert (Hu : "B.mp3" <> "") by discriminate.
  destruct (X4_select_new_track_starts_once env0 "B" "B.mp3" None
              (playing "A" false 1) (track "B") (mkAudio "A.mp3" 1)
              eq_refl N eq_refl eq_refl Hu) as [E [R [P [K _]]]].
  split; [exact E|]. split; [exact R|]. split; [exact P|].
  exact (K (mkProfile (Some 7%Z) (Some (Js.Fin 1000)))
           eq_refl eq_refl eq_refl).
Defined.

(** X5: selecting a track that has no audio URL (missing or empty) makes it
    the active track and shows the stage, but the engine is not called, the
    element keeps the source it had, and the playing flag and the stats row
    do not change. *)
Theorem X5_select_track_without_audio (env : Env) (x : string)
    (queue : option (list Track)) (s : AppState) (t : Track) :
  find (has_id x) (targetQueue queue s) = Some t ->
  activeTrackId s <> Some x ->
  Js.truthy_opt (audioUrl t) = false ->
  let s' := handleTrackSelect env x queue s in
  activeTrackId s' = Some x
  /\ currentView s' = STAGE
  /\ engine s' = engine s
  /\ audioRef s' = audioRef s
  /\ isPlaying s' = isPlaying s
  /\ profiles s' = profiles s.
Proof.
  intros F N U s'. subst s'.
  unfold handleTrackSelect. rewrite F, (sel_false _ _ N).
  destruct s as [? ? ? ? ? ? ? ? cq ? ? ? ? ?]. simpl in *.
  unfold initAudioEngine. simpl.
  destruct cq, queue, audioContextRef0 as [[|]|], audioRef0; simpl;
    rewrite ?U; repeat split; reflexivity.
Qed.

Lemma X5_witness :
  let s := set_currentQueue [track "A"; silentTrack] (playing "A" false 1) in
  activeTrackId (handleTrackSelect env0 "S" None s) = Some "S"
  /\ currentView (handleTrackSelect env0 "S" None s) = STAGE
  /\ engine (handleTrackSelect env0 "S" None s) = []
  /\ audioRef (handleTrackSelect env0 "S" None s) = Some (mkAudio "A.mp3" 1)
  /\ isPlaying (handleTrackSelect env0 "S" None s) = true
  /\ profiles (handleTrackSelect env0 "S" None s)
     = profiles (playing "A" false 1).
Proof.
  assert (N : activeTrackId
                (set_currentQueue [track "A"; silentTrack]
                   (playing "A" false 1)) <> Some "S") by discriminate.
  exact (X5_select_track_without_audio env0 "S" None
           (set_currentQueue [track "A"; silentTrack] (playing "A" false 1))
           silentTrack eq_refl N eq_refl).
Defined.

(* ------------------------------------------------------------------ *)
(** ** Stepping through the queue *)

(** X6: [handleTrackSelect] called with an empty queue selects nothing but
    still installs the empty queue; the active track stays, and from then
    on [handleNext] and [handlePrevious] return at their first guard and
    leave the state as it is (no restart either, however long the track has
    played). *)
Theorem X6_empty_queue_disables_transport (env env' : Env) (x : string)
    (s : AppState) :
  let s' := handleTrackSelect env x (Some []) s in
  activeTrackId s' = activeTrackId s
  /\ currentQueue s' = []
  /\ handleNext env' s' = Js.Done s'
  /\ handlePrevious env' s' = Js.Done s'.
Proof.
  intros s'.
  assert (A : activeTrackId s' = activeTrackId s)
    by (unfold s'; now rewrite handleTrackSelect_active_cases).
  assert (Q : currentQueue s' = [])
    by (unfold s'; now rewrite (proj1 (handleTrackSelect_queue _ _ _ _))).
  split; [exact A|]. split; [exact Q|].
  unfold handleNext, handlePrevious. rewrite Q.
  destruct (activeTrackId s') as [a|]; [|split; reflexivity].
  simpl. rewrite orb_true_r. split; reflexivity.
Qed.

Lemma rem_succ_nat (i n : nat) :
  (0 < n)%nat ->
  Z.to_nat (Js.rem (Z.of_nat i + 1) (Z.of_nat n)) = ((i + 1) mod n)%nat.
Proof.
  intros Hn. unfold Js.rem. rewrite Z.rem_mod_nonneg by lia.
  replace (Z.of_nat i + 1)%Z with (Z.of_nat (i + 1)) by lia.
  rewrite <- Nat2Z.inj_mod. apply Nat2Z.id.
Qed.

Lemma rem_pred_nat (i n : nat) :
  (i < n)%nat ->
  Z.to_nat (Js.rem (Z.of_nat i - 1 + Z.of_nat n) (Z.of_nat n))
  = ((i + n - 1) mod n)%nat.
Proof.
  intros Hn. unfold Js.rem. rewrite Z.rem_mod_nonneg by lia.
  replace (Z.of_nat i - 1 + Z.of_nat n)%Z with (Z.of_nat (i + n - 1)) by lia.
  rewrite <- Nat2Z.inj_mod. apply Nat2Z.id.
Qed.

Lemma nth_error_in_ids (q : list Track) (i : nat) (t : Track) :
  nth_error q i = Some t -> In (id t) (ids q).
Proof.
  intros H. apply in_ids. exists t. split; [|reflexivity].
  eapply nth_error_In; eassumption.
Qed.

Lemma index_exists (q : list Track) (i : nat) :
  (i < length q)%nat -> exists u, nth_error q i = Some u.
Proof.
  intros H. destruct (nth_error q i) eqn:E; [eauto|].
  apply nth_error_None in E. lia.
Qed.

(** One [handleNext] without shuffle, from the member at index [i]. *)
Lemma next_step (env : Env) (s : AppState) (i : nat) (t : Track) :
  activeTrackId s = Some (id t) -> isShuffle s = false ->
  nth_error (currentQueue s) i = Some t ->
  NoDup (ids (currentQueue s)) -> ~ In "" (ids (currentQueue s)) ->
  exists s' u,
    handleNext env s = Js.Done s'
    /\ nth_error (currentQueue s) ((i + 1) mod length (currentQueue s)) = Some u
    /\ activeTrackId s' = Some (id u)
    /\ currentQueue s' = currentQueue s
    /\ isShuffle s' = false.
Proof.
  intros A Sh Hn Hnd He.
  assert (Hlen : (i < length (currentQueue s))%nat)
    by (apply nth_error_Some; congruence).
  assert (Hq : currentQueue s <> [])
    by (intros E; rewrite E in Hlen; simpl in Hlen; lia).
  pose proof (nth_error_in_ids _ _ _ Hn) as Hin.
  assert (Hne : id t <> "") by (intros E; rewrite E in Hin; contradiction).
  destruct (index_exists (currentQueue s) ((i + 1) mod length (currentQueue s)))
    as [u Hu]; [apply Nat.mod_upper_bound; lia|].
  assert (Ex : nextTrackId env false (id t) (currentQueue s) = Some (id u)).
  { unfold nextTrackId. rewrite (findIndex_unique _ _ _ Hnd Hn).
    unfold Js.at_index.
    destruct (Z.ltb_spec
                (Js.rem (Z.of_nat i + 1) (Z.of_nat (length (currentQueue s))))
                0) as [Hneg|_].
    - pose proof (next_index_range (Z.of_nat i)
                    (Z.of_nat (length (currentQueue s)))). lia.
    - rewrite rem_succ_nat by lia. now rewrite Hu. }
  destruct (handleNext_selects env s (id t) (id u) A Hne Hq)
    as [s' [E [A' [Q' S']]]];
    [now rewrite Sh|exact (nth_error_in_ids _ _ _ Hu)|].
  exists s', u. rewrite S', Sh. auto.
Qed.

(** One [handlePrevious] without shuffle, within three seconds, from the
    member at index [i]. *)
Lemma prev_step (env : Env) (s : AppState) (i : nat) (t : Track) :
  activeTrackId s = Some (id t) -> isShuffle s = false ->
  nth_error (currentQueue s) i = Some t ->
  NoDup (ids (currentQueue s)) -> ~ In "" (ids (currentQueue s)) ->
  within_3s s ->
  exists s' u,
    handlePrevious env s = Js.Done s'
    /\ nth_error (currentQueue s)
         ((i + length (currentQueue s) - 1) mod length (currentQueue s))
       = Some u
    /\ activeTrackId s' = Some (id u)
    /\ currentQueue s' = currentQueue s
    /\ isShuffle s' = false.
Proof.
  intros A Sh Hn Hnd He Ht.
  assert (Hlen : (i < length (currentQueue s))%nat)
    by (apply nth_error_Some; congruence).
  assert (Hq : currentQueue s <> [])
    by (intros E; rewrite E in Hlen; simpl in Hlen; lia).
  pose proof (nth_error_in_ids _ _ _ Hn) as Hin.
  assert (Hne : id t <> "") by (intros E; rewrite E in Hin; contradiction).
  destruct (index_exists (currentQueue s)
              ((i + length (currentQueue s) - 1) mod length (currentQueue s)))
    as [u Hu]; [apply Nat.mod_upper_bound; lia|].
  assert (Ex : prevTrackId env false (id t) (currentQueue s) = Some (id u)).
  { unfold prevTrackId. rewrite (findIndex_unique _ _ _ Hnd Hn).
    unfold Js.at_index.
    destruct (Z.ltb_spec
                (Js.rem (Z.of_nat i - 1 + Z.of_nat (length (currentQueue s)))
                        (Z.of_nat (length (currentQueue s)))) 0) as [Hneg|_].
    - pose proof (prev_index_range (Z.of_nat i)
                    (Z.of_nat (length (currentQueue s)))). lia.
    - rewrite rem_pred_nat by lia. now rewrite Hu. }
  destruct (handlePrevious_selects env s (id t) (id u) A Hne Hq Ht)
    as [s' [E [A' [Q' S']]]];
    [now rewrite Sh|exact (nth_error_in_ids _ _ _ Hu)|].
  exists s', u. rewrite S', Sh. auto.
Qed.

(** X7: with shuffle off, unique non-empty ids and the cursor on the member
    at index [i], [k] consecutive runs of [handleNext] all return normally
    and leave the cursor on the member at index [(i + k) mod length]; the
    queue is not changed on the way. *)
Theorem X7_nexts_advance_modulo_length (envs : list Env) (s : AppState)
    (i : nat) (t : Track) :
  activeTrackId s = Some (id t) -> isShuffle s = false ->
  nth_error (currentQueue s) i = Some t ->
  NoDup (ids (currentQueue s)) -> ~ In "" (ids (currentQueue s)) ->
  exists s' u,
    nexts envs s = Js.Done s'
    /\ nth_error (currentQueue s)
         ((i + length envs) mod length (currentQueue s)) = Some u
    /\ activeTrackId s' = Some (id u)
    /\ currentQueue s' = currentQueue s.
Proof.
  revert s i t. induction envs as [|env rest IH]; intros s i t A Sh Hn Hnd He.
  - exists s, t. simpl.
    assert (Hlen : (i < length (currentQueue s))%nat)
      by (apply nth_error_Some; congruence).
    rewrite Nat.add_0_r, Nat.mod_small by exact Hlen. auto.
  - destruct (next_step env s i t A Sh Hn Hnd He)
      as [s1 [u [E [Hu [A1 [Q1 S1]]]]]].
    destruct (IH s1 ((i + 1) mod length (currentQueue s)) u)
      as [s' [v [E' [Hv [A' Q']]]]]; try (rewrite Q1; assumption);
      try assumption.
    exists s', v. simpl. rewrite E. rewrite Q1 in Hv, Q'.
    repeat split; try assumption.
    rewrite <- Hv. f_equal.
    rewrite Nat.Div0.add_mod_idemp_l. f_equal. lia.
Qed.

Lemma no_empty_id_ABC : ~ In "" (ids queueABC).
Proof. simpl. intuition discriminate. Defined.

Lemma X7_witness :
  exists s',
    nexts [env0; envHalf; envFail] (playing "B" false 1) = Js.Done s'
    /\ activeTrackId s' = Some "B"
    /\ currentQueue s' = queueABC.
Proof.
  destruct (X7_nexts_advance_modulo_length [env0; envHalf; envFail]
              (playing "B" false 1) 1 (track "B")
              eq_refl eq_refl eq_refl NoDup_ABC no_empty_id_ABC)
    as [s' [u [E [Hu [A Q]]]]].
  exists s'. split; [exact E|]. split; [|exact Q].
  injection Hu as <-. exact A.
Defined.

(** X8: with shuffle off, unique non-empty ids and the active track in the
    queue, [handlePrevious] (within the first three seconds) followed by
    [handleNext] makes the original track active again, also across the
    wrap-around at the start of the queue. *)
Theorem X8_previous_then_next (env1 env2 : Env) (s : AppState) (a : string) :
  activeTrackId s = Some a -> isShuffle s = false ->
  In a (ids (currentQueue s)) -> NoDup (ids (currentQueue s)) ->
  ~ In "" (ids (currentQueue s)) -> within_3s s ->
  exists s1 s2,
    handlePrevious env1 s = Js.Done s1
    /\ handleNext env2 s1 = Js.Done s2
    /\ activeTrackId s2 = Some a.
Proof.
  intros A Sh Hin Hnd He Ht.
  destruct (findIndex_present a _ Hin) as [t [H0 [Hn Hid]]].
  subst a.
  set (i := Z.to_nat (Js.findIndex (has_id (id t)) (currentQueue s))) in *.
  assert (Hlen : (i < length (currentQueue s))%nat)
    by (apply nth_error_Some; congruence).
  destruct (prev_step env1 s i t A Sh Hn Hnd He Ht)
    as [s1 [u [E1 [Hu [A1 [Q1 S1]]]]]].
  destruct (next_step env2 s1
              ((i + length (currentQueue s) - 1) mod length (currentQueue s))
              u A1 S1) as [s2 [v [E2 [Hv [A2 _]]]]];
    try (rewrite Q1; assumption).
  exists s1, s2. split; [exact E1|]. split; [exact E2|].
  rewrite Q1 in Hv.
  rewrite Nat.Div0.add_mod_idemp_l in Hv.
  replace (i + length (currentQueue s) - 1 + 1)%nat
    with (i + 1 * length (currentQueue s))%nat in Hv by lia.
  rewrite Nat.Div0.mod_add, Nat.mod_small in Hv by exact Hlen.
  rewrite Hn in Hv. injection Hv as <-. exact A2.
Qed.

Lemma X8_witness :
  exists s1 s2,
    handlePrevious env0 (playing "A" false 1) = Js.Done s1
    /\ handleNext env0 s1 = Js.Done s2
    /\ activeTrackId s2 = Some "A".
Proof.
  assert (Hin : In "A" (ids (currentQueue (playing "A" false 1))))
    by (left; reflexivity).
  exact (X8_previous_then_next env0 env0 (playing "A" false 1) "A"
           eq_refl eq_refl Hin NoDup_ABC no_empty_id_ABC
           (playing_within_3s "A" false)).
Defined.

Lemma addPlaytime_session (env : Env) (s : AppState) :
  session (addPlaytime env s) = session s.
Proof. frame. Qed.

Lemma targetQueue_current (s : AppState) :
  currentQueue s <> [] -> targetQueue None s = currentQueue s.
Proof.
  unfold targetQueue. destruct (currentQueue s); [congruence|reflexivity].
Qed.

Lemma guard_cases (a : string) (s : AppState) :
  negb (Js.truthy_string a) || (length (currentQueue s) =? 0)%nat = false ->
  a <> "" /\ currentQueue s <> [].
Proof.
  intros G. apply orb_false_iff in G. destruct G as [G1 G2]. split.
  - intros ->. discriminate.
  - intros E. rewrite E in G2. discriminate.
Qed.

(** X9: [handleNext] and [handlePrevious], whenever they return, leave the
    queue, the catalog, the shuffle flag and the session exactly as they
    were: traversal never reorders or edits the queue. *)
Theorem X9_transport_keeps_queue (env : Env) (s s' : AppState) :
  handleNext env s = Js.Done s' \/ handlePrevious env s = Js.Done s' ->
  currentQueue s' = currentQueue s
  /\ tracks s' = tracks s
  /\ isShuffle s' = isShuffle s
  /\ session s' = session s.
Proof.
  intros [H|H].
  - unfold handleNext in H.
    destruct (activeTrackId s) as [a|]; [|injection H as <-; auto].
    destruct (negb (Js.truthy_string a) || (length (currentQueue s) =? 0)%nat)
      eqn:G; [injection H as <-; auto|].
    destruct (guard_cases a s G) as [_ Hq].
    destruct (nextTrackId env (isShuffle s) a (currentQueue s)) as [x|];
      [|discriminate].
    injection H as <-.
    destruct (handleTrackSelect_queue env x None (addPlaytime env s))
      as [Q [T [S U]]].
    destruct (addPlaytime_frame env s) as [_ [Q0 [S0 [T0 _]]]].
    rewrite Q, T, S, U, targetQueue_current by (now rewrite Q0).
    rewrite Q0, T0, S0, addPlaytime_session. auto.
  - unfold handlePrevious in H.
    destruct (activeTrackId s) as [a|]; [|injection H as <-; auto].
    destruct (negb (Js.truthy_string a) || (length (currentQueue s) =? 0)%nat)
      eqn:G; [injection H as <-; auto|].
    destruct (guard_cases a s G) as [_ Hq].
    assert (K : forall x, currentQueue (handleTrackSelect env x None s)
                          = currentQueue s
                          /\ tracks (handleTrackSelect env x None s) = tracks s
                          /\ isShuffle (handleTrackSelect env x None s)
                             = isShuffle s
                          /\ session (handleTrackSelect env x None s)
                             = session s).
    { intros x. destruct (handleTrackSelect_queue env x None s)
        as [Q [T [S U]]].
      rewrite Q, T, S, U, targetQueue_current by exact Hq. auto. }
    destruct (audioRef s) as [au|].
    + destruct (Js.Qlt_bool 3 (position au)).
      * injection H as <-. auto.
      * destruct (prevTrackId env (isShuffle s) a (currentQueue s)) as [x|];
          [|discriminate].
        injection H as <-. apply K.
    + destruct (prevTrackId env (isShuffle s) a (currentQueue s)) as [x|];
        [|discriminate].
      injection H as <-. apply K.
Qed.

Lemma X9_witness :
  exists s',
    handleNext envHalf (playing "A" true 1) = Js.Done s'
    /\ currentQueue s' = queueABC /\ tracks s' = queueABC
    /\ isShuffle s' = true /\ session s' = Some "user-1".
Proof.
  eexists. split; [unfold handleNext; simpl; reflexivity|].
  apply (X9_transport_keeps_queue envHalf (playing "A" true 1)).
  left. reflexivity.
Defined.

Lemma addPlaytime_silent (env : Env) (s : AppState) :
  stats env <> Answered \/ Js.truthy_opt (session s) = false
  \/ Js.gt0 (duration s) = false \/ profiles s = None ->
  playtime (addPlaytime env s) = playtime s.
Proof.
  intros H. unfold addPlaytime, playtime.
  destruct (Js.truthy_opt (session s)) eqn:S1; simpl; [|reflexivity].
  destruct (Js.gt0 (duration s)) eqn:D; simpl; [|reflexivity].
  destruct (stats env) eqn:St; simpl; try reflexivity.
  destruct (profiles s) eqn:P; simpl; [|now rewrite P].
  exfalso. destruct H as [H|[H|[H|H]]]; congruence.
Qed.

(** X10: the playtime report of [handleNext] is best effort.  When the
    stats collaborator refuses or throws, nobody is signed in, the duration
    is unknown ([0] or [NaN]) or the stats row is missing, [handleNext]
    still returns normally and moves the cursor to a queue member, and the
    cumulative playtime is not changed. *)
Theorem X10_next_advances_without_report (env : Env) (s : AppState)
    (a : string) :
  activeTrackId s = Some a -> a <> "" -> currentQueue s <> [] ->
  0 <= random env -> random env < 1 ->
  stats env <> Answered \/ Js.truthy_opt (session s) = false
  \/ Js.gt0 (duration s) = false \/ profiles s = None ->
  exists s' x,
    handleNext env s = Js.Done s'
    /\ activeTrackId s' = Some x
    /\ In x (ids (currentQueue s))
    /\ playtime s' = playtime s.
Proof.
  intros A Hne Hq H0 H1 Hsilent.
  destruct (nextTrackId_member env (isShuffle s) a _ H0 H1 Hq) as [x [Ex Hin]].
  destruct (handleNext_selects env s a x A Hne Hq Ex Hin) as [s' [E [A' _]]].
  exists s', x. repeat split; try assumption.
  unfold handleNext in E. rewrite A, (guard_passes a s Hne Hq), Ex in E.
  injection E as <-. rewrite handleTrackSelect_playtime.
  now apply addPlaytime_silent.
Qed.

Lemma X10_witness :
  exists s' x,
    handleNext (mkEnv 0 true Thrown) (playing "A" false 10) = Js.Done s'
    /\ activeTrackId s' = Some x
    /\ In x (ids (currentQueue (playing "A" false 10)))
    /\ playtime s' = Some (Some (Js.Fin 1000)).
Proof.
  assert (Ha : "A" <> "") by discriminate.
  assert (Hq : currentQueue (playing "A" false 10) <> []) by discriminate.
  assert (H0 : 0 <= random (mkEnv 0 true Thrown)) by discriminate.
  assert (H1 : random (mkEnv 0 true Thrown) < 1) by reflexivity.
  assert (Hs : stats (mkEnv 0 true Thrown) <> Answered) by discriminate.
  exact (X10_next_advances_without_report (mkEnv 0 true Thrown)
           (playing "A" false 10) "A" eq_refl Ha Hq H0 H1 (or_introl Hs)).
Defined.

(* ------------------------------------------------------------------ *)
(** ** Play, pause and the audio graph *)

(** X11: with the element mounted and a track active, two consecutive
    [togglePlay] calls bring [isPlaying] back to its value and issue one
    [pause()] and one [play()] on the bound source, in the order given by
    the initial flag; active track and source are not changed. *)
Theorem X11_toggle_twice (env1 env2 : Env) (s : AppState) (x : string)
    (au : Audio) :
  audioRef s = Some au -> activeTrackId s = Some x -> x <> "" ->
  let s2 := togglePlay env2 (togglePlay env1 s) in
  isPlaying s2 = isPlaying s
  /\ activeTrackId s2 = Some x
  /\ audioRef s2 = Some au
  /\ engine s2
     = (engine s ++ (if isPlaying s
                     then [Pause; Play (src au) (playOk env2)]
                     else [Play (src au) (playOk env1); Pause]))%list.
Proof.
  intros R A Hx s2. subst s2.
  destruct (togglePlay_active env1 s x au R A Hx) as [A1 [P1 [R1 E1]]].
  destruct (togglePlay_active env2 _ x au R1 A1 Hx) as [A2 [P2 [R2 E2]]].
  rewrite A2, P2, R2, E2, P1, E1, negb_involutive, <- app_assoc.
  destruct (isPlaying s); simpl; auto.
Qed.

Lemma X11_witness :
  let s2 := togglePlay env0 (togglePlay envFail (playing "A" false 1)) in
  isPlaying s2 = true
  /\ activeTrackId s2 = Some "A"
  /\ audioRef s2 = Some (mkAudio "A.mp3" 1)
  /\ engine s2 = [Pause; Play "A.mp3" true].
Proof.
  assert (Hx : "A" <> "") by discriminate.
  exact (X11_toggle_twice envFail env0 (playing "A" false 1) "A"
           (mkAudio "A.mp3" 1) eq_refl eq_refl Hx).
Defined.

(* ------------------------------------------------------------------ *)
(** ** An invariant of the reachable states *)

Lemma select_keeps_cursor_in_queue (env : Env) (x : string)
    (queue : option (list Track)) (s : AppState) :
  cursor_in_queue s ->
  match queue with
  | Some q => In x (ids q)
  | None => True
  end ->
  cursor_in_queue (handleTrackSelect env x queue s).
Proof.
  intros Inv Hq b Hb.
  rewrite (proj1 (handleTrackSelect_queue env x queue s)).
  rewrite handleTrackSelect_active_cases in Hb.
  destruct (find (has_id x) (targetQueue queue s)) as [t|] eqn:F.
  - injection Hb as <-. apply find_some in F. destruct F as [Hin Hid].
    apply in_ids. exists t. split; [exact Hin|now apply has_id_true].
  - destruct queue as [q|].
    + exfalso. destruct (find_has_id_in x q Hq) as [t [Ft _]].
      simpl in F. congruence.
    + specialize (Inv b Hb). unfold targetQueue.
      destruct (currentQueue s); [contradiction|exact Inv].
Qed.

(** X12: in every state the application can reach from a start without an
    active track, through any sequence of selections (the components pass a
    queue that contains the selected track), transport commands, element
    events, seeks and catalog updates, the active track id, when set, is
    the id of a member of the current queue; in particular the queue is not
    empty while a track is active. *)
Theorem X12_reachable_cursor_in_queue (s : AppState) :
  reachable s ->
  cursor_in_queue s
  /\ (forall a, activeTrackId s = Some a -> currentQueue s <> []).
Proof.
  intros R.
  assert (Inv : cursor_in_queue s).
  { induction R as [s Hinit|s s' R IH St].
    - intros a Ha. congruence.
    - destruct St.
      + now apply select_keeps_cursor_in_queue.
      + now apply select_keeps_cursor_in_queue.
      + match goal with H : handleNext _ _ = _ |- _ => rename H into E end.
        unfold handleNext in E.
        destruct (activeTrackId s) as [a|] eqn:A; [|injection E as <-; exact IH].
        destruct (negb (Js.truthy_string a)
                  || (length (currentQueue s) =? 0)%nat) eqn:G;
          [injection E as <-; exact IH|].
        destruct (guard_cases a s G) as [_ Hq].
        destruct (nextTrackId env (isShuffle s) a (currentQueue s)) as [x|]
          eqn:Ex; [|discriminate].
        injection E as <-.
        apply select_keeps_cursor_in_queue; [|exact I].
        intros b Hb.
        destruct (addPlaytime_frame env s) as [A0 [Q0 _]].
        rewrite Q0. apply IH. congruence.
      + match goal with H : handlePrevious _ _ = _ |- _ => rename H into E end.
        unfold handlePrevious in E.
        destruct (activeTrackId s) as [a|] eqn:A; [|injection E as <-; exact IH].
        destruct (negb (Js.truthy_string a)
                  || (length (currentQueue s) =? 0)%nat) eqn:G;
          [injection E as <-; exact IH|].
        destruct (audioRef s) as [au|];
          [destruct (Js.Qlt_bool 3 (position au));
           [injection E as <-; exact IH|]|];
          (destruct (prevTrackId env (isShuffle s) a (currentQueue s)) as [x|];
           [|discriminate]);
          injection E as <-;
          (apply select_keeps_cursor_in_queue; [exact IH|exact I]).
      + intros b Hb. unfold togglePlay in *.
        destruct (initAudioEngine_frame s) as [A0 _].
        assert (Q0 : currentQueue (initAudioEngine s) = currentQueue s)
          by (unfold initAudioEngine; repeat (break_match; simpl);
              reflexivity).
        destruct (audioRef (initAudioEngine s));
          [destruct (negb (Js.truthy_opt (activeTrackId s)))|];
          try (rewrite Q0; apply IH; congruence).
        unfold audio_play in *.
        destruct (isPlaying s); simpl in *;
          repeat (break_match; simpl in * );
          rewrite ?Q0; apply IH; congruence.
      + exact IH.
      + intros b Hb. unfold handleSeek in *.
        destruct (audioRef s); simpl in *; now apply IH.
      + intros b Hb. unfold handleTimeUpdate in *.
        destruct (audioRef s); simpl in *; now apply IH.
      + intros b Hb. unfold handleLoadedMetadata in *.
        destruct (audioRef s); simpl in *; now apply IH.
      + exact IH.
      + exact IH.
      + intros b Hb. unfold elapse in *.
        destruct (audioRef s); simpl in *; now apply IH.
      + intros b Hb. unfold toggleFavorite in *.
        destruct (session s) as [u|]; simpl in *; [|now apply IH].
        destruct (negb (Js.truthy_string u)); simpl in *; [now apply IH|].
        destruct (find (has_id i) (tracks s)); simpl in *; now apply IH.
      + exact IH. }
  split; [exact Inv|].
  intros a Ha E. specialize (Inv a Ha). rewrite E in Inv. contradiction.
Qed.

Lemma X12_witness :
  reachable (handleTrackSelect env0 "A" None idle)
  /\ cursor_in_queue (handleTrackSelect env0 "A" None idle)
  /\ currentQueue (handleTrackSelect env0 "A" None idle) <> [].
Proof.
  assert (R : reachable (handleTrackSelect env0 "A" None idle))
    by (apply (reach_step idle); [apply reach_init; reflexivity
                                 |apply step_select]).
  destruct (X12_reachable_cursor_in_queue _ R) as [Inv Hq].
  split; [exact R|]. split; [exact Inv|exact (Hq "A" eq_refl)].
Defined.

(* ------------------------------------------------------------------ *)
(** ** Clicking the progress bar *)

Lemma Qeq_bool_false_of_pos (q : Q) : 0 < q -> Qeq_bool q 0 = false.
Proof.
  intros H. destruct (Qeq_bool q 0) eqn:E; [|reflexivity].
  apply Qeq_bool_iff in E. rewrite E in H. discriminate.
Qed.

Lemma Qeq_bool_false_of_neq (q : Q) : ~ q == 0 -> Qeq_bool q 0 = false.
Proof.
  intros H. destruct (Qeq_bool q 0) eqn:E; [|reflexivity].
  apply Qeq_bool_iff in E. contradiction.
Qed.

Lemma ratio_le_1 (n d : Q) : 0 < d -> n <= d -> n / d <= 1.
Proof.
  intros Hd Hn. apply Qle_shift_div_r; [exact Hd|]. lra.
Qed.

(** X13: a click inside the progress bar of a track of known positive
    duration asks for a time between 0 and the duration, so the position
    [handleSeek] then reports is the clamped one. *)
Theorem X13_click_inside_bar_seeks_inside_track (clientX left width d : Q)
    (s : AppState) (au : Audio) :
  0 < width -> left <= clientX -> clientX <= left + width -> 0 < d ->
  audioRef s = Some au ->
  exists t,
    StageView.handleProgressBarClick clientX left width (Js.Fin d)
    = StageView.SeekTo t
    /\ 0 <= t /\ t <= d
    /\ currentTime (handleSeek t s) == clamp_spec t d.
Proof.
  intros Hw Hl Hr Hd R.
  exists ((clientX - left) / width * d).
  assert (H0 : 0 <= (clientX - left) / width)
    by (apply ratio_nonneg; [exact Hw|lra]).
  assert (H1 : (clientX - left) / width <= 1)
    by (apply ratio_le_1; [exact Hw|lra]).
  assert (T0 : 0 <= (clientX - left) / width * d)
    by (apply Qmult_le_0_compat; [exact H0|lra]).
  assert (T1 : (clientX - left) / width * d <= d).
  { setoid_replace d with (1 * d) at 2 by ring.
    apply Qmult_le_compat_r; [exact H1|lra]. }
  split.
  - unfold StageView.handleProgressBarClick. simpl.
    now rewrite (Qeq_bool_false_of_pos d Hd), (Qeq_bool_false_of_pos width Hw).
  - split; [exact T0|]. split; [exact T1|].
    unfold handleSeek. rewrite R. simpl.
    symmetry. now apply clamp_spec_in_range.
Qed.

Lemma X13_witness :
  exists t,
    StageView.handleProgressBarClick 130 30 400 (Js.Fin 200)
    = StageView.SeekTo t
    /\ 0 <= t /\ t <= 200
    /\ currentTime (handleSeek t (playing "A" false 1)) == clamp_spec t 200.
Proof.
  assert (Hw : 0 < 400) by reflexivity.
  assert (Hl : 30 <= 130) by discriminate.
  assert (Hr : 130 <= 30 + 400) by discriminate.
  assert (Hd : 0 < 200) by reflexivity.
  exact (X13_click_inside_bar_seeks_inside_track 130 30 400 200
           (playing "A" false 1) (mkAudio "A.mp3" 1) Hw Hl Hr Hd eq_refl).
Defined.

(** X14: round trip between the click and the bar.  For a bar of non-zero
    width and a known non-zero duration, the progress percentage computed
    from the time a click asks for is the clicked fraction of the bar
    times 100; and when the duration is [0] or [NaN] a click asks for
    nothing. *)
Theorem X14_click_then_progress (clientX left width d : Q) :
  ~ width == 0 -> ~ d == 0 ->
  (exists t,
     StageView.handleProgressBarClick clientX left width (Js.Fin d)
     = StageView.SeekTo t
     /\ Stage.progressPercentage t (Js.Fin d)
        == (clientX - left) / width * 100)
  /\ StageView.handleProgressBarClick clientX left width (Js.Fin 0)
     = StageView.NoSeek
  /\ StageView.handleProgressBarClick clientX left width Js.NaN
     = StageView.NoSeek.
Proof.
  intros Hw Hd. split; [|split; reflexivity].
  exists ((clientX - left) / width * d). split.
  - unfold StageView.handleProgressBarClick. simpl.
    now rewrite (Qeq_bool_false_of_neq d Hd), (Qeq_bool_false_of_neq width Hw).
  - unfold Stage.progressPercentage. simpl.
    rewrite (Qeq_bool_false_of_neq d Hd). simpl. field. split; assumption.
Qed.

Lemma X14_witness :
  exists t,
    StageView.handleProgressBarClick 130 30 400 (Js.Fin 200)
    = StageView.SeekTo t
    /\ Stage.progressPercentage t (Js.Fin 200) == 25.
Proof.
  assert (Hw : ~ 400 == 0) by discriminate.
  assert (Hd : ~ 200 == 0) by discriminate.
  destruct (X14_click_then_progress 130 30 400 200 Hw Hd)
    as [[t [E P]] _].
  exists t. split; [exact E|].
  eapply Qeq_trans; [exact P|]. reflexivity.
Defined.

(* ------------------------------------------------------------------ *)
(** ** Time labels *)

Lemma Qfloor_unique (z : Z) (x : Q) :
  inject_Z z <= x -> x < inject_Z (z + 1) -> Qfloor x = z.
Proof.
  intros Hlo Hhi.
  pose proof (Qfloor_le x) as Flo. pose proof (Qlt_floor x) as Fhi.
  assert (H1 : inject_Z z < inject_Z (Qfloor x + 1))
    by (eapply Qle_lt_trans; eassumption).
  assert (H2 : inject_Z (Qfloor x) < inject_Z (z + 1))
    by (eapply Qle_lt_trans; eassumption).
  rewrite <- Zlt_Qlt in H1, H2. lia.
Qed.

Lemma Qfloor_minus_Z (x : Q) (k : Z) :
  Qfloor (x - inject_Z k) = (Qfloor x - k)%Z.
Proof.
  apply Qfloor_unique.
  - unfold Zminus. rewrite inject_Z_plus, inject_Z_opp.
    pose proof (Qfloor_le x). lra.
  - replace (Qfloor x - k + 1)%Z with ((Qfloor x + 1) + - k)%Z by lia.
    rewrite inject_Z_plus, inject_Z_opp.
    pose proof (Qlt_floor x). lra.
Qed.

Lemma two_digit_seconds_nat (n : nat) :
  (n < 60)%nat ->
  String.length
    (StageView.padStart 2 "0" (StageView.toString (Z.of_nat n))) = 2%nat.
Proof.
  intros Hn. do 60 (destruct n as [|n]; [reflexivity|]). lia.
Qed.

Lemma two_digit_seconds (sec : Z) :
  (0 <= sec <= 59)%Z ->
  String.length (StageView.padStart 2 "0" (StageView.toString sec)) = 2%nat.
Proof.
  intros H. rewrite <- (Z2Nat.id sec) by lia.
  apply two_digit_seconds_nat. lia.
Qed.

(** X15: for a time that is not negative and below [2^53], [formatTime]
    prints the whole minutes, a colon and a seconds field of exactly two
    characters; the seconds are between 0 and 59, the minutes are below
    [2^53], and [60 * minutes + seconds] is the time rounded down to whole
    seconds. *)
Theorem X15_formatTime_minutes_seconds (time : Q) :
  0 <= time -> time < inject_Z (2 ^ 53) ->
  exists (minutes seconds : Z) (field : string),
    StageView.formatTime time
    = StageView.toString minutes ++ ":" ++ field
    /\ field = StageView.padStart 2 "0" (StageView.toString seconds)
    /\ String.length field = 2%nat
    /\ (0 <= minutes < 2 ^ 53)%Z /\ (0 <= seconds <= 59)%Z
    /\ (60 * minutes + seconds = Qfloor time)%Z.
Proof.
  intros Ht Hbound.
  assert (H60 : 0 < 60) by reflexivity.
  pose proof (frem_is_mod time 60 Ht H60) as Hrem.
  destruct (mod_spec_range time 60 H60) as [Rlo Rhi].
  assert (Hsec : Qfloor (Js.frem time 60)
                 = (Qfloor time - 60 * Qfloor (time / 60))%Z).
  { rewrite Hrem. unfold mod_spec.
    rewrite <- (Qfloor_minus_Z time (60 * Qfloor (time / 60))).
    apply Qfloor_comp. rewrite inject_Z_mult. reflexivity. }
  assert (Hrange : (0 <= Qfloor (Js.frem time 60) <= 59)%Z).
  { rewrite Hrem. split.
    - change 0%Z with (Qfloor 0). now apply Qfloor_resp_le.
    - assert (H : (Qfloor (mod_spec time 60) < 60)%Z); [|lia].
      rewrite Zlt_Qlt. eapply Qle_lt_trans; [apply Qfloor_le|exact Rhi]. }
  assert (Hmin : (0 <= Qfloor (time / 60))%Z).
  { change 0%Z with (Qfloor 0). apply Qfloor_resp_le.
    now apply ratio_nonneg. }
  assert (Hfl : (Qfloor time < 2 ^ 53)%Z).
  { rewrite Zlt_Qlt. eapply Qle_lt_trans; [apply Qfloor_le|exact Hbound]. }
  exists (Qfloor (time / 60)), (Qfloor (Js.frem time 60)),
    (StageView.padStart 2 "0" (StageView.toString (Qfloor (Js.frem time 60)))).
  split; [reflexivity|]. split; [reflexivity|].
  split; [now apply two_digit_seconds|].
  split; [|split; [exact Hrange|lia]].
  split; [exact Hmin|lia].
Qed.

Lemma X15_witness :
  StageView.formatTime (1255 # 10) = "2:05"
  /\ exists (minutes seconds : Z) (field : string),
       StageView.formatTime (1255 # 10)
       = StageView.toString minutes ++ ":" ++ field
       /\ field = StageView.padStart 2 "0" (StageView.toString seconds)
       /\ String.length field = 2%nat
       /\ (0 <= minutes < 2 ^ 53)%Z /\ (0 <= seconds <= 59)%Z
       /\ (60 * minutes + seconds = Qfloor (1255 # 10))%Z.
Proof.
  assert (Ht : 0 <= 1255 # 10) by discriminate.
  assert (Hb : 1255 # 10 < inject_Z (2 ^ 53)) by reflexivity.
  split; [vm_compute; reflexivity|].
  exact (X15_formatTime_minutes_seconds (1255 # 10) Ht Hb).
Defined.

(* ------------------------------------------------------------------ *)
(** ** Accent colours and bars *)

Lemma max_lub (a b c : Q) : a <= c -> b <= c -> Js.max a b <= c.
Proof. intros Ha Hb. unfold Js.max. destruct (Qle_bool a b); assumption. Qed.

Lemma min_glb (a b c : Q) : c <= a -> c <= b -> c <= Js.min a b.
Proof. intros Ha Hb. unfold Js.min. destruct (Qle_bool a b); assumption. Qed.

Lemma channel_range (v : Z) :
  (0 <= v <= 255)%Z -> 0 <= inject_Z v / 255 /\ inject_Z v / 255 <= 1.
Proof.
  intros [H0 H1]. rewrite Zle_Qle in H0, H1. split.
  - apply ratio_nonneg; [reflexivity|exact H0].
  - apply ratio_le_1; [reflexivity|exact H1].
Qed.

Lemma ratio_neg (n d : Q) : 0 < d -> n < 0 -> n / d < 0.
Proof.
  intros Hd Hn. apply Qlt_shift_div_r; [exact Hd|]. lra.
Qed.

(** X16: for channel values between 0 and 255, [hexToHsl] returns a hue in
    [[0, 360)] and a saturation and a lightness in [[0, 100]]. *)
Theorem X16_hexToHsl_ranges (red green blue : Z) :
  (0 <= red <= 255)%Z -> (0 <= green <= 255)%Z -> (0 <= blue <= 255)%Z ->
  let c := Stage.hexToHsl red green blue in
  (0 <= Stage.h c /\ Stage.h c < 360)
  /\ (0 <= Stage.s c /\ Stage.s c <= 100)
  /\ (0 <= Stage.l c /\ Stage.l c <= 100).
Proof.
  intros Hr Hg Hb c.
  pose proof (hexToHsl_hue_nonneg red green blue) as Hh0. fold c in Hh0.
  subst c. unfold Stage.hexToHsl in *.
  destruct (channel_range red Hr) as [r0 r1].
  destruct (channel_range green Hg) as [g0 g1].
  destruct (channel_range blue Hb) as [b0 b1].
  set (r := inject_Z red / 255) in *. set (g := inject_Z green / 255) in *.
  set (b := inject_Z blue / 255) in *.
  destruct (max_ge (Js.max r g) b) as [M1 Mb].
  destruct (max_ge r g) as [Mr Mg].
  destruct (min_le (Js.min r g) b) as [m1 mb].
  destruct (min_le r g) as [mr mg].
  pose proof (max_lub _ _ 1 (max_lub r g 1 r1 g1) b1) as Mx1.
  pose proof (min_glb _ _ 0 (min_glb r g 0 r0 g0) b0) as Mn0.
  set (mx := Js.max (Js.max r g) b) in *.
  set (mn := Js.min (Js.min r g) b) in *.
  assert (Hl : 0 <= (mx + mn) / 2 * 100 /\ (mx + mn) / 2 * 100 <= 100).
  { setoid_replace ((mx + mn) / 2 * 100) with ((mx + mn) * 50) by field.
    split; lra. }
  destruct (Qeq_bool mx mn) eqn:E; simpl in *.
  - repeat split; try discriminate; try reflexivity; tauto.
  - assert (Hd : 0 < mx - mn).
    { destruct (Qlt_le_dec mn mx) as [H|H]; [lra|].
      assert (Heq : mx == mn) by (apply Qle_antisym; lra).
      apply Qeq_bool_iff in Heq. congruence. }
    split; [split; [exact Hh0|]|split; [|exact Hl]].
    + assert (Hscale : forall y, y < 6 -> y / 6 * 360 < 360).
      { intros y Hy. setoid_replace (y / 6 * 360) with (y * 60) by field.
        lra. }
      apply Hscale.
      assert (Hgb : (g - b) / (mx - mn) <= 1)
        by (apply ratio_le_1; [exact Hd|lra]).
      assert (Hbr : (b - r) / (mx - mn) <= 1)
        by (apply ratio_le_1; [exact Hd|lra]).
      assert (Hrg : (r - g) / (mx - mn) <= 1)
        by (apply ratio_le_1; [exact Hd|lra]).
      destruct (Qeq_bool mx r); [|destruct (Qeq_bool mx g);
                                   [|destruct (Qeq_bool mx b)]].
      * destruct (Js.Qlt_bool g b) eqn:L.
        -- assert (Hlt : g < b).
           { unfold Js.Qlt_bool in L. apply negb_true_iff in L.
             destruct (Qlt_le_dec g b) as [H|H]; [exact H|].
             apply Qle_bool_iff in H. congruence. }
           assert ((g - b) / (mx - mn) < 0)
             by (apply ratio_neg; [exact Hd|lra]).
           remember ((g - b) / (mx - mn)) as X. lra.
        -- remember ((g - b) / (mx - mn)) as X. lra.
      * remember ((b - r) / (mx - mn)) as X. lra.
      * remember ((r - g) / (mx - mn)) as X. lra.
      * reflexivity.
    + assert (Hs : forall y, 0 <= y -> y <= 1 -> 0 <= y * 100 /\ y * 100 <= 100)
        by (intros y Y0 Y1; split; lra).
      destruct (Js.Qlt_bool (1 # 2) ((mx + mn) / 2)) eqn:L.
      * assert (Hhalf : 1 # 2 < (mx + mn) / 2).
        { unfold Js.Qlt_bool in L. apply negb_true_iff in L.
          destruct (Qlt_le_dec (1 # 2) ((mx + mn) / 2)) as [H|H]; [exact H|].
          apply Qle_bool_iff in H. congruence. }
        assert (Hden : 0 < 2 - mx - mn) by lra.
        apply Hs.
        -- apply ratio_nonneg; [exact Hden|lra].
        -- apply ratio_le_1; [exact Hden|lra].
      * assert (Hden : 0 < mx + mn) by lra.
        apply Hs.
        -- apply ratio_nonneg; [exact Hden|lra].
        -- apply ratio_le_1; [exact Hden|lra].
Qed.

Lemma X16_witness :
  (0 <= Stage.h (Stage.hexToHsl 13 51 242)
   /\ Stage.h (Stage.hexToHsl 13 51 242) < 360)
  /\ (0 <= Stage.s (Stage.hexToHsl 13 51 242)
      /\ Stage.s (Stage.hexToHsl 13 51 242) <= 100)
  /\ (0 <= Stage.l (Stage.hexToHsl 13 51 242)
      /\ Stage.l (Stage.hexToHsl 13 51 242) <= 100).
Proof.
  assert (Hr : (0 <= 13 <= 255)%Z) by lia.
  assert (Hg : (0 <= 51 <= 255)%Z) by lia.
  assert (Hb : (0 <= 242 <= 255)%Z) by lia.
  exact (X16_hexToHsl_ranges 13 51 242 Hr Hg Hb).
Defined.

(** X17: for a sample between 0 and 255 the lightness of a bar is at least
    50 and at least the base lightness plus 10, and at most 30 above the
    larger of the two; the bar is between 0 and 80% of the canvas high. *)
Theorem X17_bar_is_visible (base : Stage.Hsl) (bufferLength i : nat)
    (canvasHeight : Q) (dataArray : list Z) :
  (0 <= nth i dataArray 0 <= 255)%Z -> 0 <= canvasHeight ->
  let c := Stage.barColor base bufferLength i (nth i dataArray 0%Z) in
  let hgt := StageView.barHeight canvasHeight dataArray i in
  50 <= Stage.lightness c
  /\ Stage.l base + 10 <= Stage.lightness c
  /\ Stage.lightness c <= Js.max 50 (Stage.l base + 10) + 30
  /\ 0 <= hgt /\ hgt <= (8 # 10) * canvasHeight.
Proof.
  intros Hm Hc c hgt. subst c hgt.
  unfold Stage.barColor, StageView.barHeight. simpl.
  destruct (channel_range _ Hm) as [M0 M1].
  destruct (max_ge 50 (Stage.l base + 10)) as [L50 Lb].
  remember (inject_Z (nth i dataArray 0%Z) / 255) as m.
  remember (Js.max 50 (Stage.l base + 10)) as mx.
  assert (Hmc : 0 <= m * canvasHeight)
    by (apply Qmult_le_0_compat; assumption).
  assert (Hmc1 : m * canvasHeight <= 1 * canvasHeight)
    by (apply Qmult_le_compat_r; assumption).
  repeat split; try lra.
Qed.

Lemma X17_witness :
  50 <= Stage.lightness
          (Stage.barColor (Stage.hexToHsl 13 51 242) 1024 3
             (nth 3 [0; 10; 20; 255]%Z 0%Z))
  /\ StageView.barHeight 500 [0; 10; 20; 255]%Z 3 <= (8 # 10) * 500.
Proof.
  assert (Hm : (0 <= nth 3 [0; 10; 20; 255] 0 <= 255)%Z) by (simpl; lia).
  assert (Hc : 0 <= 500) by discriminate.
  destruct (X17_bar_is_visible (Stage.hexToHsl 13 51 242) 1024 3 500
              [0; 10; 20; 255]%Z Hm Hc) as [L [_ [_ [_ H]]]].
  split; [exact L|exact H].
Defined.

Section DrawLoop.

Variables (baseHsl : Stage.Hsl) (canvasWidth canvasHeight : Q).
Variables (bufferLength : nat) (dataArray : list Z).

Let bw := StageView.barWidth canvasWidth bufferLength.
Let from := StageView.drawFrom baseHsl canvasWidth canvasHeight bufferLength
              dataArray.

(** The [k]-th bar drawn by the loop started at bin [i], abscissa [x]. *)
Lemma drawFrom_nth (fuel : nat) :
  forall (i : nat) (x blur : Q) (k : nat) (b : StageView.Bar),
    nth_error (from fuel i x blur) k = Some b ->
    StageView.bin b = (i + k)%nat
    /\ StageView.left b == x + inject_Z (Z.of_nat k) * bw
    /\ StageView.shadowBlur b
       = match k with
         | O => blur
         | S k' => if (180 <? nth (i + k') dataArray 0)%Z then 20 else 0
         end
    /\ (k <> 0%nat -> StageView.left b <= canvasWidth)
    /\ StageView.height b = StageView.barHeight canvasHeight dataArray (i + k)
    /\ StageView.top b
       = canvasHeight - StageView.barHeight canvasHeight dataArray (i + k)
    /\ StageView.fillStyle b
       = Stage.barColor baseHsl bufferLength (i + k)
           (nth (i + k) dataArray 0%Z).
Proof.
  induction fuel as [|fuel IH]; intros i x blur k b H.
  - destruct k; discriminate.
  - unfold from in H. simpl in H.
    destruct (Js.Qlt_bool (inject_Z (Z.of_nat i))
                (Stage.displayBins bufferLength)); [|destruct k; discriminate].
    destruct k as [|k].
    + assert (Hb : b = StageView.mkBar i x
                         (canvasHeight
                          - StageView.barHeight canvasHeight dataArray i)
                         (StageView.barWidth canvasWidth bufferLength - 1)
                         (StageView.barHeight canvasHeight dataArray i)
                         (Stage.barColor baseHsl bufferLength i
                            (nth i dataArray 0%Z)) blur).
      { destruct (Js.Qlt_bool canvasWidth
                    (x + StageView.barWidth canvasWidth bufferLength));
          simpl in H; congruence. }
      subst b. simpl. rewrite Nat.add_0_r.
      repeat split; try reflexivity; [ring|congruence].
    + destruct (Js.Qlt_bool canvasWidth
                  (x + StageView.barWidth canvasWidth bufferLength)) eqn:Brk.
      * destruct k; discriminate.
      * simpl in H. apply IH in H.
        destruct H as [Hbin [Hleft [Hblur [Hin [Hh [Ht Hf]]]]]].
        replace (i + S k)%nat with (S i + k)%nat by lia.
        assert (Hnext : x + bw <= canvasWidth).
        { unfold Js.Qlt_bool in Brk. apply negb_false_iff in Brk.
          now apply Qle_bool_iff in Brk. }
        split; [exact Hbin|]. split.
        { rewrite Hleft. fold bw.
          replace (Z.of_nat (S k)) with (Z.of_nat k + 1)%Z by lia.
          rewrite inject_Z_plus. change (inject_Z 1) with 1. ring. }
        split.
        { rewrite Hblur. destruct k as [|k'].
          - now rewrite Nat.add_0_r.
          - replace (S i + k')%nat with (i + S k')%nat by lia. reflexivity. }
        split; [|split; [exact Hh|split; [exact Ht|exact Hf]]].
        intros _. destruct k as [|k'].
        { rewrite Hleft. unfold bw in *. simpl.
          change (inject_Z 0) with 0. lra. }
        { apply Hin. discriminate. }
Qed.

(** Extra fuel changes nothing once [2 * (i + fuel)] reaches
    [bufferLength]. *)
Lemma drawFrom_fuel (fuel extra : nat) :
  forall (i : nat) (x blur : Q),
    (bufferLength <= 2 * (i + fuel))%nat ->
    from (fuel + extra)%nat i x blur = from fuel i x blur.
Proof.
  induction fuel as [|fuel IH]; intros i x blur H.
  - simpl. destruct extra; [reflexivity|]. unfold from. simpl.
    assert (Hstop : Js.Qlt_bool (inject_Z (Z.of_nat i))
                      (Stage.displayBins bufferLength) = false).
    { apply Qlt_bool_false. unfold Stage.displayBins.
      apply Qle_shift_div_r; [reflexivity|].
      setoid_replace (inject_Z (Z.of_nat i) * 2)
        with (inject_Z (Z.of_nat i * 2)) by (rewrite inject_Z_mult; reflexivity).
      rewrite <- Zle_Qle. lia. }
    now rewrite Hstop.
  - unfold from. simpl.
    destruct (Js.Qlt_bool (inject_Z (Z.of_nat i))
                (Stage.displayBins bufferLength)); [|reflexivity].
    destruct (Js.Qlt_bool canvasWidth
                (x + StageView.barWidth canvasWidth bufferLength));
      [reflexivity|].
    f_equal. apply IH. lia.
Qed.

End DrawLoop.

Lemma barWidth_quarter (canvasWidth : Q) (bufferLength : nat) :
  (0 < bufferLength)%nat ->
  StageView.barWidth canvasWidth bufferLength
  == canvasWidth * (4 / inject_Z (Z.of_nat bufferLength)).
Proof.
  intros H. unfold StageView.barWidth, Stage.displayBins. field.
  intros E. change 0 with (inject_Z 0) in E.
  apply (proj1 (inject_Z_injective _ _)) in E. lia.
Qed.

(** X18: the bars of one frame, on a canvas of positive width with at
    least one frequency bin.  The [k]-th bar drawn is bin [k]; it starts at
    [k * barWidth], which lies between 0 and the canvas width; its top and
    height add up to the canvas height; and because bars are two slots wide
    the loop stops early: only bins with [4 * k <= bufferLength] are ever
    drawn.  The loop needs no more than [bufferLength] iterations. *)
Theorem X18_bars_start_inside_canvas (baseHsl : Stage.Hsl)
    (canvasWidth canvasHeight : Q) (bufferLength : nat) (dataArray : list Z)
    (blur : Q) (k : nat) (b : StageView.Bar) :
  0 < canvasWidth -> (0 < bufferLength)%nat ->
  nth_error (StageView.draw baseHsl canvasWidth canvasHeight bufferLength
               dataArray blur) k = Some b ->
  StageView.bin b = k
  /\ StageView.left b
     == inject_Z (Z.of_nat k) * StageView.barWidth canvasWidth bufferLength
  /\ 0 <= StageView.left b /\ StageView.left b <= canvasWidth
  /\ (4 * k <= bufferLength)%nat
  /\ StageView.top b + StageView.height b == canvasHeight
  /\ StageView.fillStyle b
     = Stage.barColor baseHsl bufferLength k (nth k dataArray 0%Z)
  /\ (forall extra,
      StageView.drawFrom baseHsl canvasWidth canvasHeight bufferLength
        dataArray (bufferLength + extra) 0 0 blur
      = StageView.draw baseHsl canvasWidth canvasHeight bufferLength
          dataArray blur).
Proof.
  intros Hw Hb H. unfold StageView.draw in *.
  destruct (drawFrom_nth _ _ _ _ _ _ _ _ _ _ _ H)
    as [Hbin [Hleft [_ [Hin [Hh [Ht Hf]]]]]].
  simpl in Hbin, Hh, Ht, Hf.
  pose proof (barWidth_quarter canvasWidth bufferLength Hb) as Hbw.
  set (bw := StageView.barWidth canvasWidth bufferLength) in *.
  assert (HL : 0 < inject_Z (Z.of_nat bufferLength))
    by (change 0 with (inject_Z 0); rewrite <- Zlt_Qlt; lia).
  assert (HK : 0 <= inject_Z (Z.of_nat k))
    by (change 0 with (inject_Z 0); rewrite <- Zle_Qle; lia).
  assert (Hbw0 : 0 <= bw).
  { rewrite Hbw. apply Qmult_le_0_compat; [lra|].
    apply ratio_nonneg; [exact HL|discriminate]. }
  assert (Hl : StageView.left b == inject_Z (Z.of_nat k) * bw)
    by (rewrite Hleft; ring).
  assert (Hl0 : 0 <= StageView.left b)
    by (rewrite Hl; now apply Qmult_le_0_compat).
  assert (Hlw : StageView.left b <= canvasWidth).
  { destruct k as [|k']; [|apply Hin; discriminate].
    rewrite Hl. simpl. change (inject_Z 0) with 0. lra. }
  split; [exact Hbin|]. split; [exact Hl|]. split; [exact Hl0|].
  split; [exact Hlw|]. split.
  - destruct (le_lt_dec (4 * k) bufferLength) as [Hle|Hgt]; [exact Hle|].
    exfalso.
    assert (Hq : inject_Z (Z.of_nat bufferLength)
                 < inject_Z (Z.of_nat k) * 4).
    { setoid_replace (inject_Z (Z.of_nat k) * 4)
        with (inject_Z (Z.of_nat k * 4)) by (rewrite inject_Z_mult; reflexivity).
      rewrite <- Zlt_Qlt. lia. }
    assert (Hr : 1 < inject_Z (Z.of_nat k) * 4 / inject_Z (Z.of_nat bufferLength))
      by (apply Qlt_shift_div_l; [exact HL|lra]).
    assert (Hbig : canvasWidth * 1
                   < canvasWidth
                     * (inject_Z (Z.of_nat k) * 4
                        / inject_Z (Z.of_nat bufferLength)))
      by (apply Qmult_lt_l; assumption).
    assert (Heq : StageView.left b
                  == canvasWidth
                     * (inject_Z (Z.of_nat k) * 4
                        / inject_Z (Z.of_nat bufferLength))).
    { rewrite Hl, Hbw. field. intros E. rewrite E in HL. discriminate. }
    rewrite Heq in Hlw. lra.
  - split; [rewrite Ht, Hh; ring|]. split; [exact Hf|].
    intros extra. apply drawFrom_fuel. lia.
Qed.

Lemma X18_witness :
  exists b,
    nth_error (StageView.draw (Stage.hexToHsl 13 51 242) 800 400 8
                 [200; 100; 255; 0; 0; 0; 0; 0]%Z 0) 2 = Some b
    /\ StageView.bin b = 2%nat
    /\ StageView.left b == 800
    /\ (4 * 2 <= 8)%nat
    /\ length (StageView.draw (Stage.hexToHsl 13 51 242) 800 400 8
                 [200; 100; 255; 0; 0; 0; 0; 0]%Z 0) = 3%nat.
Proof.
  assert (Hw : 0 < 800) by reflexivity.
  assert (Hb : (0 < 8)%nat) by lia.
  eexists. split; [vm_compute; reflexivity|].
  match goal with
  | |- StageView.bin ?b = _ /\ _ =>
      destruct (X18_bars_start_inside_canvas (Stage.hexToHsl 13 51 242)
                  800 400 8 [200; 100; 255; 0; 0; 0; 0; 0]%Z 0 2 b Hw Hb)
        as [Hbin [Hl [_ [_ [Hq _]]]]]
  end; [vm_compute; reflexivity|].
  split; [exact Hbin|]. split; [|split; [exact Hq|vm_compute; reflexivity]].
  eapply Qeq_trans; [exact Hl|]. vm_compute. reflexivity.
Defined.

(** X19: the glow lags by one bar.  [shadowBlur] is set after a bar has
    been filled, so the first bar of a frame is filled with the blur the
    previous frame left behind, and every later bar with the blur decided
    by the sample of the bin before it (20 when that sample exceeds 180,
    else 0). *)
Theorem X19_glow_lags_one_bar (baseHsl : Stage.Hsl)
    (canvasWidth canvasHeight : Q) (bufferLength : nat) (dataArray : list Z)
    (blur : Q) (k : nat) (b : StageView.Bar) :
  nth_error (StageView.draw baseHsl canvasWidth canvasHeight bufferLength
               dataArray blur) k = Some b ->
  StageView.shadowBlur b
  = match k with
    | O => blur
    | S k' => if (180 <? nth k' dataArray 0)%Z then 20 else 0
    end.
Proof.
  intros H. unfold StageView.draw in H.
  destruct (drawFrom_nth _ _ _ _ _ _ _ _ _ _ _ H) as [_ [_ [Hblur _]]].
  exact Hblur.
Qed.

Lemma X19_witness :
  exists b0 b1 b2,
    StageView.draw (Stage.hexToHsl 13 51 242) 800 400 8
      [200; 100; 255; 0; 0; 0; 0; 0]%Z 7 = [b0; b1; b2]
    /\ StageView.shadowBlur b0 = 7
    /\ StageView.shadowBlur b1 = 20
    /\ StageView.shadowBlur b2 = 0.
Proof.
  do 3 eexists. split; [vm_compute; reflexivity|].
  split; [|split].
  - exact (X19_glow_lags_one_bar (Stage.hexToHsl 13 51 242) 800 400 8
             [200; 100; 255; 0; 0; 0; 0; 0]%Z 7 0 _
             ltac:(vm_compute; reflexivity)).
  - exact (X19_glow_lags_one_bar (Stage.hexToHsl 13 51 242) 800 400 8
             [200; 100; 255; 0; 0; 0; 0; 0]%Z 7 1 _
             ltac:(vm_compute; reflexivity)).
  - exact (X19_glow_lags_one_bar (Stage.hexToHsl 13 51 242) 800 400 8
             [200; 100; 255; 0; 0; 0; 0; 0]%Z 7 2 _
             ltac:(vm_compute; reflexivity)).
Defined.

(* ------------------------------------------------------------------ *)
(** ** The library view and favourites *)

Lemma NoDup_ids_filter (p : Track -> bool) (q : list Track) :
  NoDup (ids q) -> NoDup (ids (filter p q)).
Proof.
  induction q as [|t rest IH]; simpl; intros H; [constructor|].
  inversion H as [|? ? Hnotin Hrest]; subst.
  destruct (p t); simpl; [|now apply IH].
  constructor; [|now apply IH].
  intros Hin. apply Hnotin. apply in_ids in Hin.
  destruct Hin as [u [Hu E]]. apply filter_In in Hu.
  apply in_ids. exists u. tauto.
Qed.

Lemma owned_by_true (uid : string) (t : Track) :
  owned_by uid t = true <-> user_id t = Some uid.
Proof.
  unfold owned_by. destruct (user_id t) as [u|].
  - rewrite String.eqb_eq. split; congruence.
  - split; discriminate.
Qed.

Lemma filter_subseq {A : Type} (p : A -> bool) (l : list A) :
  subseq (filter p l) l.
Proof.
  induction l as [|x rest IH]; simpl; [constructor|].
  destruct (p x); now constructor.
Qed.

Lemma subseq_refl {A : Type} (l : list A) : subseq l l.
Proof. induction l; now constructor. Qed.

(** X20: [libraryTracks] is empty when nobody is signed in; for a signed-in
    user it holds exactly the catalog tracks that are favourites or the
    user's own uploads; in every case it is the catalog with some tracks
    left out, so the tracks keep their catalog order, and it keeps track
    ids unique. *)
Theorem X20_libraryTracks_favourites_and_uploads (s : AppState) :
  (Js.truthy_opt (session s) = false -> libraryTracks s = [])
  /\ (forall uid t, session s = Some uid -> uid <> "" ->
      (In t (libraryTracks s)
       <-> In t (tracks s)
           /\ (isFavorite t = true \/ user_id t = Some uid)))
  /\ subseq (libraryTracks s) (tracks s)
  /\ (NoDup (ids (tracks s)) -> NoDup (ids (libraryTracks s))).
Proof.
  unfold libraryTracks. split; [|split; [|split]].
  - destruct (session s) as [u|]; simpl; [|reflexivity].
    intros H. now rewrite H.
  - intros uid t Hs Hu. rewrite Hs. unfold Js.truthy_string.
    apply String.eqb_neq in Hu. rewrite Hu. simpl.
    rewrite filter_In, orb_true_iff, owned_by_true. reflexivity.
  - assert (Hnil : forall l : list Track, subseq [] l)
      by (intros l; induction l; now constructor).
    destruct (session s) as [u|]; [|apply Hnil].
    destruct (Js.truthy_string u); [apply filter_subseq|apply Hnil].
  - intros Hnd. destruct (session s) as [u|]; [|constructor].
    destruct (Js.truthy_string u); [|constructor].
    now apply NoDup_ids_filter.
Qed.

Lemma NoDup_catalog : NoDup (ids catalog).
Proof. repeat constructor; simpl; intuition discriminate. Defined.

Lemma X20_witness :
  libraryTracks signedIn
  = [mine "A" false "user-1"; mine "B" true "user-2"]
  /\ (In (mine "B" true "user-2") (libraryTracks signedIn)
      <-> In (mine "B" true "user-2") (tracks signedIn)
          /\ (isFavorite (mine "B" true "user-2") = true
              \/ user_id (mine "B" true "user-2") = Some "user-1"))
  /\ subseq (libraryTracks signedIn) (tracks signedIn)
  /\ NoDup (ids (libraryTracks signedIn)).
Proof.
  assert (Hu : "user-1" <> "") by discriminate.
  destruct (X20_libraryTracks_favourites_and_uploads signedIn)
    as [_ [M [O N]]].
  split; [reflexivity|].
  split; [exact (M "user-1" (mine "B" true "user-2") eq_refl Hu)|].
  split; [exact O|exact (N NoDup_catalog)].
Defined.

Lemma flipFavorite_involutive (t : Track) : flipFavorite (flipFavorite t) = t.
Proof. destruct t. unfold flipFavorite. simpl. now rewrite negb_involutive. Qed.

Lemma flip_map_ids (i : string) (l : list Track) :
  ids (map (fun t => if id t =? i then flipFavorite t else t) l) = ids l.
Proof.
  unfold ids. rewrite map_map. apply map_ext. intros t.
  destruct (id t =? i); reflexivity.
Qed.

Lemma flip_map_twice (i : string) (l : list Track) :
  map (fun t => if id t =? i then flipFavorite t else t)
      (map (fun t => if id t =? i then flipFavorite t else t) l) = l.
Proof.
  rewrite map_map. rewrite <- (map_id l) at 2. apply map_ext. intros t.
  destruct (id t =? i) eqn:E; simpl; rewrite E; [|reflexivity].
  apply flipFavorite_involutive.
Qed.

Lemma find_flip_map (i : string) (l : list Track) (t : Track) :
  find (has_id i) l = Some t ->
  find (has_id i) (map (fun t => if id t =? i then flipFavorite t else t) l)
  = Some (flipFavorite t).
Proof.
  induction l as [|u rest IH]; simpl; [discriminate|].
  unfold has_id at 1 3. destruct (id u =? i) eqn:E; simpl.
  - intros H. injection H as <-. unfold has_id. simpl. now rewrite E.
  - unfold has_id at 1. rewrite E. exact IH.
Qed.

(** X21: the optimistic update of [toggleFavorite], for a signed-in user
    and a track of the catalog.  The catalog keeps its ids in their order
    and only tracks with the given id change; the current queue and the
    active track are not touched; the request is a delete when the track
    was a favourite and an insert otherwise; and toggling twice restores
    the catalog and sends the two opposite requests. *)
Theorem X21_toggleFavorite_twice (i uid : string) (s : AppState) (t : Track) :
  session s = Some uid -> uid <> "" ->
  find (has_id i) (tracks s) = Some t ->
  let s1 := fst (toggleFavorite i s) in
  let s2 := fst (toggleFavorite i s1) in
  ids (tracks s1) = ids (tracks s)
  /\ (forall u, In u (tracks s) -> id u <> i -> In u (tracks s1))
  /\ currentQueue s1 = currentQueue s
  /\ activeTrackId s1 = activeTrackId s
  /\ snd (toggleFavorite i s)
     = Some (if isFavorite t then DeleteFavorite uid i
             else InsertFavorite uid i)
  /\ snd (toggleFavorite i s1)
     = Some (if isFavorite t then InsertFavorite uid i
             else DeleteFavorite uid i)
  /\ tracks s2 = tracks s.
Proof.
  intros Hs Hu F s1 s2.
  assert (Ht : negb (Js.truthy_string uid) = false).
  { unfold Js.truthy_string. apply String.eqb_neq in Hu. now rewrite Hu. }
  assert (E1 : toggleFavorite i s
               = (set_tracks
                    (map (fun t => if id t =? i then flipFavorite t else t)
                         (tracks s)) s,
                  Some (if isFavorite t then DeleteFavorite uid i
                        else InsertFavorite uid i)))
    by (unfold toggleFavorite; now rewrite Hs, Ht, F).
  assert (T1 : tracks s1
               = map (fun t => if id t =? i then flipFavorite t else t)
                     (tracks s))
    by (unfold s1; now rewrite E1).
  assert (S1 : session s1 = Some uid) by (unfold s1; now rewrite E1).
  assert (F1 : find (has_id i) (tracks s1) = Some (flipFavorite t))
    by (rewrite T1; now apply find_flip_map).
  assert (E2 : toggleFavorite i s1
               = (set_tracks
                    (map (fun t => if id t =? i then flipFavorite t else t)
                         (tracks s1)) s1,
                  Some (if isFavorite (flipFavorite t)
                        then DeleteFavorite uid i
                        else InsertFavorite uid i)))
    by (unfold toggleFavorite; now rewrite S1, Ht, F1).
  split; [rewrite T1; apply flip_map_ids|].
  split.
  { intros u Hin Hne. rewrite T1. apply in_map_iff. exists u.
    apply String.eqb_neq in Hne. rewrite Hne. auto. }
  split; [unfold s1; now rewrite E1|].
  split; [unfold s1; now rewrite E1|].
  split; [now rewrite E1|].
  split.
  { rewrite E2. simpl. destruct (isFavorite t); reflexivity. }
  unfold s2. rewrite E2. simpl. rewrite T1. apply flip_map_twice.
Qed.

Lemma X21_witness :
  let s1 := fst (toggleFavorite "B" signedIn) in
  ids (tracks s1) = ["A"; "B"; "C"]
  /\ snd (toggleFavorite "B" signedIn) = Some (DeleteFavorite "user-1" "B")
  /\ snd (toggleFavorite "B" s1) = Some (InsertFavorite "user-1" "B")
  /\ tracks (fst (toggleFavorite "B" s1)) = catalog.
Proof.
  assert (Hu : "user-1" <> "") by discriminate.
  destruct (X21_toggleFavorite_twice "B" "user-1" signedIn
              (mine "B" true "user-2") eq_refl Hu eq_refl)
    as [I [_ [_ [_ [R1 [R2 T]]]]]].
  split; [exact I|]. split; [exact R1|]. split; [exact R2|exact T].
Defined.

(* ------------------------------------------------------------------ *)
(** ** Playlists *)

Lemma existsb_has_id (x : string) (l : list Track) :
  existsb (has_id x) l = true <-> In x (ids l).
Proof.
  rewrite existsb_exists, in_ids.
  split; intros [t [H1 H2]]; exists t; split; try assumption;
    now apply has_id_true.
Qed.

Lemma existsb_has_id_false (x : string) (l : list Track) :
  existsb (has_id x) l = false <-> ~ In x (ids l).
Proof.
  rewrite <- existsb_has_id. destruct (existsb (has_id x) l); split;
    congruence.
Qed.

Lemma filter_other_absent (x : string) (l : list Track) :
  ~ In x (ids l) -> filter (other_id x) l = l.
Proof.
  induction l as [|t rest IH]; simpl; intros H; [reflexivity|].
  assert (Ht : other_id x t = true)
    by (apply other_id_true; intros E; apply H; now left).
  rewrite Ht, IH; [reflexivity|]. intros Hin. apply H. now right.
Qed.

Lemma filter_other_removes (x : string) (l : list Track) :
  ~ In x (ids (filter (other_id x) l)).
Proof.
  intros H. apply in_ids in H. destruct H as [t [Hin E]].
  apply filter_In in Hin. destruct Hin as [_ Ho].
  apply other_id_true in Ho. contradiction.
Qed.

Lemma find_has_id_id (x : string) (l : list Track) (t : Track) :
  find (has_id x) l = Some t -> id t = x /\ In t l.
Proof.
  intros F. apply find_some in F. destruct F as [Hin Hid].
  split; [now apply has_id_true|exact Hin].
Qed.

Lemma playlist_eta (pl : Playlist.t) :
  Playlist.mk (Playlist.id pl) (Playlist.name pl) (Playlist.tracks pl) = pl.
Proof. destruct pl. reflexivity. Qed.

(** X22: the optimistic update of [handleAddTrackToPlaylist] for a track
    of the catalog: the list of playlists keeps its ids and order; every
    playlist with the given id then contains the track; playlists with
    another id are not changed; and adding the same track again changes
    nothing. *)
Theorem X22_add_track_to_playlist (cat : list Track)
    (playlistId trackId : string) (prev : list Playlist.t) (t : Track) :
  find (has_id trackId) cat = Some t ->
  let next := handleAddTrackToPlaylist cat playlistId trackId prev in
  map Playlist.id next = map Playlist.id prev
  /\ (forall pl, In pl next -> Playlist.id pl = playlistId ->
      In trackId (ids (Playlist.tracks pl)))
  /\ (forall pl, In pl prev -> Playlist.id pl <> playlistId -> In pl next)
  /\ handleAddTrackToPlaylist cat playlistId trackId next = next.
Proof.
  intros F next. subst next. unfold handleAddTrackToPlaylist. rewrite F.
  destruct (find_has_id_id _ _ _ F) as [Hid _].
  set (f := fun pl : Playlist.t =>
              if Playlist.id pl =? playlistId
              then if existsb (has_id trackId) (Playlist.tracks pl) then pl
                   else Playlist.mk (Playlist.id pl) (Playlist.name pl)
                          (Playlist.tracks pl ++ [t])
              else pl).
  assert (Hf_id : forall pl, Playlist.id (f pl) = Playlist.id pl).
  { intros pl. unfold f. destruct (Playlist.id pl =? playlistId);
      [destruct (existsb (has_id trackId) (Playlist.tracks pl))|];
      reflexivity. }
  assert (Hf_in : forall pl, Playlist.id pl = playlistId ->
                             In trackId (ids (Playlist.tracks (f pl)))).
  { intros pl E. unfold f. apply String.eqb_eq in E. rewrite E.
    destruct (existsb (has_id trackId) (Playlist.tracks pl)) eqn:X.
    - now apply existsb_has_id.
    - simpl. unfold ids. rewrite map_app. apply in_or_app. right.
      left. exact Hid. }
  assert (Hf_idem : forall pl, f (f pl) = f pl).
  { intros pl. unfold f at 1. rewrite Hf_id.
    destruct (Playlist.id pl =? playlistId) eqn:E; [|reflexivity].
    apply String.eqb_eq in E.
    pose proof (proj2 (existsb_has_id _ _) (Hf_in pl E)) as X.
    now rewrite X. }
  split; [rewrite map_map; apply map_ext; exact Hf_id|].
  split.
  { intros pl Hin E. apply in_map_iff in Hin. destruct Hin as [p0 [<- _]].
    apply Hf_in. now rewrite <- Hf_id. }
  split.
  { intros pl Hin Hne. apply in_map_iff. exists pl. split; [|exact Hin].
    unfold f. apply String.eqb_neq in Hne. now rewrite Hne. }
  rewrite map_map. apply map_ext. exact Hf_idem.
Qed.

Lemma X22_witness :
  let next := handleAddTrackToPlaylist catalog "p2" "C" mixes in
  map Playlist.id next = ["p1"; "p2"]
  /\ next = [Playlist.mk "p1" "Morning" [mine "A" false "user-1"];
             Playlist.mk "p2" "Night" [mine "C" false "user-2"]]
  /\ handleAddTrackToPlaylist catalog "p2" "C" next = next.
Proof.
  destruct (X22_add_track_to_playlist catalog "p2" "C" mixes
              (mine "C" false "user-2") eq_refl) as [I [_ [_ R]]].
  split; [exact I|]. split; [reflexivity|exact R].
Defined.

(** X23: the optimistic update of [handleRemoveTrackFromPlaylist], on any
    playlists: the list of playlists keeps its ids and order; no playlist
    with the given id holds a track with the given id afterwards, whether
    or not it held one before; playlists with another id are not changed.
    And removing a track right after adding it to playlists that did not
    contain it gives back the playlists one started from. *)
Theorem X23_remove_undoes_add (cat : list Track)
    (playlistId trackId : string) (prev : list Playlist.t) :
  map Playlist.id (handleRemoveTrackFromPlaylist playlistId trackId prev)
  = map Playlist.id prev
  /\ (forall pl,
      In pl (handleRemoveTrackFromPlaylist playlistId trackId prev) ->
      Playlist.id pl = playlistId ->
      ~ In trackId (ids (Playlist.tracks pl)))
  /\ (forall pl, In pl prev -> Playlist.id pl <> playlistId ->
      In pl (handleRemoveTrackFromPlaylist playlistId trackId prev))
  /\ ((forall pl, In pl prev -> Playlist.id pl = playlistId ->
       ~ In trackId (ids (Playlist.tracks pl))) ->
      handleRemoveTrackFromPlaylist playlistId trackId
        (handleAddTrackToPlaylist cat playlistId trackId prev) = prev).
Proof.
  split; [|split; [|split]].
  - unfold handleRemoveTrackFromPlaylist. rewrite map_map.
    apply map_ext. intros pl.
    destruct (Playlist.id pl =? playlistId); reflexivity.
  - intros pl Hin E. unfold handleRemoveTrackFromPlaylist in Hin.
    apply in_map_iff in Hin. destruct Hin as [p0 [<- _]].
    destruct (Playlist.id p0 =? playlistId) eqn:X; simpl in *.
    + apply filter_other_removes.
    + apply String.eqb_neq in X. contradiction.
  - intros pl Hin Hne. unfold handleRemoveTrackFromPlaylist.
    apply in_map_iff. exists pl. split; [|exact Hin].
    apply String.eqb_neq in Hne. now rewrite Hne.
  - intros Habs.
    unfold handleAddTrackToPlaylist, handleRemoveTrackFromPlaylist.
    destruct (find (has_id trackId) cat) as [t|] eqn:F.
    + destruct (find_has_id_id _ _ _ F) as [Hid _].
      rewrite map_map. rewrite <- (map_id prev) at 2.
      apply map_ext_in. intros pl Hin.
      destruct (Playlist.id pl =? playlistId) eqn:E.
      * apply String.eqb_eq in E. specialize (Habs pl Hin E).
        rewrite (proj2 (existsb_has_id_false _ _) Habs). simpl.
        apply String.eqb_eq in E. rewrite E.
        rewrite filter_app, (filter_other_absent _ _ Habs). simpl.
        assert (Ho : other_id trackId t = false)
          by (unfold other_id; apply negb_false_iff; now apply String.eqb_eq).
        rewrite Ho, app_nil_r. apply playlist_eta.
      * rewrite E. reflexivity.
    + rewrite <- (map_id prev) at 2. apply map_ext_in. intros pl Hin.
      destruct (Playlist.id pl =? playlistId) eqn:E; [|reflexivity].
      apply String.eqb_eq in E. specialize (Habs pl Hin E).
      rewrite (filter_other_absent _ _ Habs). apply playlist_eta.
Qed.

Lemma X23_witness :
  handleRemoveTrackFromPlaylist "p1" "A" mixes
  = [Playlist.mk "p1" "Morning" []; Playlist.mk "p2" "Night" []]
  /\ (forall pl, In pl (handleRemoveTrackFromPlaylist "p1" "A" mixes) ->
      Playlist.id pl = "p1" -> ~ In "A" (ids (Playlist.tracks pl)))
  /\ handleRemoveTrackFromPlaylist "p2" "C"
       (handleAddTrackToPlaylist catalog "p2" "C" mixes) = mixes.
Proof.
  assert (Habs : forall pl, In pl mixes -> Playlist.id pl = "p2" ->
                            ~ In "C" (ids (Playlist.tracks pl))).
  { intros pl [<-|[<-|[]]] E; simpl; [discriminate|tauto]. }
  destruct (X23_remove_undoes_add catalog "p1" "A" mixes) as [_ [G _]].
  destruct (X23_remove_undoes_add catalog "p2" "C" mixes) as [_ [_ [_ R]]].
  split; [reflexivity|]. split; [exact G|exact (R Habs)].
Defined.

Lemma NoDup_ids_snoc (l : list Track) (t : Track) :
  NoDup (ids l) -> ~ In (id t) (ids l) -> NoDup (ids (l ++ [t])).
Proof.
  intros Hnd Hnot. unfold ids. rewrite map_app. simpl.
  apply (Permutation_NoDup (l := id t :: map id l)).
  - apply Permutation_cons_append.
  - now constructor.
Qed.

(** X24: unique ids are an invariant of the playlists.  Built by
    [fetchPlaylists] from a catalog with unique ids, every playlist holds
    catalog tracks only and no id twice; and the optimistic updates of
    adding and of removing a track keep every playlist free of repeated
    ids. *)
Theorem X24_playlists_keep_ids_unique (cat : list Track)
    (rows : list PlaylistRow) (playlistId trackId : string)
    (prev : list Playlist.t) :
  (NoDup (ids cat) -> playlists_unique (mappedPlaylists cat rows))
  /\ (forall pl u, In pl (mappedPlaylists cat rows) ->
      In u (Playlist.tracks pl) -> In u cat)
  /\ (playlists_unique prev ->
      playlists_unique (handleAddTrackToPlaylist cat playlistId trackId prev)
      /\ playlists_unique
           (handleRemoveTrackFromPlaylist playlistId trackId prev)).
Proof.
  unfold playlists_unique. split; [|split].
  - intros Hnd. unfold mappedPlaylists. apply Forall_map.
    apply Forall_forall. intros row _. simpl. now apply NoDup_ids_filter.
  - intros pl u Hin Hu. unfold mappedPlaylists in Hin.
    apply in_map_iff in Hin. destruct Hin as [row [<- _]]. simpl in Hu.
    now apply filter_In in Hu.
  - intros Hprev. split.
    + unfold handleAddTrackToPlaylist.
      destruct (find (has_id trackId) cat) as [t|] eqn:F; [|exact Hprev].
      destruct (find_has_id_id _ _ _ F) as [Hid _].
      apply Forall_map. apply Forall_forall. intros pl Hin.
      pose proof (proj1 (Forall_forall _ _) Hprev pl Hin) as Hpl.
      destruct (Playlist.id pl =? playlistId); [|exact Hpl].
      destruct (existsb (has_id trackId) (Playlist.tracks pl)) eqn:X;
        [exact Hpl|]. simpl.
      apply NoDup_ids_snoc; [exact Hpl|].
      rewrite Hid. now apply existsb_has_id_false.
    + unfold handleRemoveTrackFromPlaylist.
      apply Forall_map. apply Forall_forall. intros pl Hin.
      pose proof (proj1 (Forall_forall _ _) Hprev pl Hin) as Hpl.
      destruct (Playlist.id pl =? playlistId); [|exact Hpl].
      simpl. now apply NoDup_ids_filter.
Qed.

Lemma X24_witness :
  playlists_unique
    (mappedPlaylists catalog
       [mkPlaylistRow "p1" "Morning" ["C"; "A"; "A"; "gone"]])
  /\ mappedPlaylists catalog
       [mkPlaylistRow "p1" "Morning" ["C"; "A"; "A"; "gone"]]
     = [Playlist.mk "p1" "Morning"
          [mine "A" false "user-1"; mine "C" false "user-2"]].
Proof.
  split; [|reflexivity].
  exact (proj1 (X24_playlists_keep_ids_unique catalog
                  [mkPlaylistRow "p1" "Morning" ["C"; "A"; "A"; "gone"]]
                  "p1" "A" []) NoDup_catalog).
Defined.

(** X25: [playPlaylist] on a playlist with at least one track makes its
    first track the active one, installs the playlist as the current queue
    and shows the stage; on an empty playlist it does nothing. *)
Theorem X25_playPlaylist_starts_at_first (env : Env) (pl : Playlist.t)
    (s : AppState) :
  (forall first rest, Playlist.tracks pl = first :: rest ->
   let s' := Library.playPlaylist env pl s in
   activeTrackId s' = Some (id first)
   /\ currentQueue s' = Playlist.tracks pl
   /\ currentView s' = STAGE)
  /\ (Playlist.tracks pl = [] -> Library.playPlaylist env pl s = s).
Proof.
  unfold Library.playPlaylist. split.
  - intros first rest E. rewrite E. simpl.
    assert (F : find (has_id (id first))
                  (targetQueue (Some (first :: rest)) s) = Some first)
      by (simpl; unfold has_id; now rewrite String.eqb_refl).
    rewrite handleTrackSelect_active_cases, F.
    rewrite (proj1 (handleTrackSelect_queue _ _ _ _)).
    split; [reflexivity|]. split; [reflexivity|].
    unfold handleTrackSelect. rewrite F.
    destruct s as [? ? ? ? ? ? ? ? cq ? ? ? ? ?], cq; crunch.
  - intros E. now rewrite E.
Qed.

Lemma X25_witness :
  let pl := Playlist.mk "p1" "Morning" [track "C"; track "A"] in
  activeTrackId (Library.playPlaylist env0 pl idle) = Some "C"
  /\ currentQueue (Library.playPlaylist env0 pl idle) = [track "C"; track "A"]
  /\ currentView (Library.playPlaylist env0 pl idle) = STAGE.
Proof.
  exact (proj1 (X25_playPlaylist_starts_at_first env0
                  (Playlist.mk "p1" "Morning" [track "C"; track "A"]) idle)
           (track "C") [track "A"] eq_refl).
Defined.

(** X26: [randomCover] never reads outside the playlist: for an empty
    playlist it is [null], and otherwise it is the cover of one of the
    playlist's tracks, whatever the first track's id starts with. *)
Theorem X26_randomCover_in_range (playlistTracks : list Track) :
  (playlistTracks = [] -> Library.randomCover playlistTracks = Js.Done None)
  /\ (playlistTracks <> [] ->
      exists t, In t playlistTracks
                /\ Library.randomCover playlistTracks
                   = Js.Done (Some (coverUrl t))).
Proof.
  split.
  - intros ->. reflexivity.
  - intros Hne. unfold Library.randomCover.
    assert (Hlen : (0 < Z.of_nat (length playlistTracks))%Z)
      by (now apply length_pos_Z).
    assert (E : (length playlistTracks =? 0)%nat = false)
      by (apply Nat.eqb_neq; lia).
    rewrite E.
    assert (Hcode : (0 <= Library.charCodeAt0
                            (id (hd (track "") playlistTracks)))%Z)
      by (unfold Library.charCodeAt0;
          destruct (id (hd (track "") playlistTracks)); lia).
    destruct (at_index_in_range playlistTracks
                (Js.rem (Library.charCodeAt0
                           (id (hd (track "") playlistTracks)))
                        (Z.of_nat (length playlistTracks))))
      as [t [Et Ht]].
    + unfold Js.rem. apply Z.rem_bound_pos; assumption.
    + exists t. rewrite Et. auto.
Qed.

Lemma X26_witness :
  exists t, In t queueABC
            /\ Library.randomCover queueABC = Js.Done (Some (coverUrl t)).
Proof.
  assert (Hne : queueABC <> []) by discriminate.
  exact (proj2 (X26_randomCover_in_range queueABC) Hne).
Defined.

(** X27: the metadata invented for an upload, for every value of
    [Math.random()] in [[0, 1)]: the tempo lies between 80 and 139 and the
    accent colour is one of the five colours of the palette (never
    [undefined]). *)
Theorem X27_upload_metadata_bounds (r : Q) :
  0 <= r -> r < 1 ->
  (80 <= randomBpm r <= 139)%Z
  /\ exists c, randomColor r = Some c /\ In c colors.
Proof.
  intros H0 H1. split.
  - pose proof (floor_scaled_range r 60 H0 H1 ltac:(lia)) as H.
    unfold Js.floor_scaled in H. change (inject_Z (Z.of_nat 60)) with 60 in H.
    unfold randomBpm. lia.
  - unfold randomColor.
    apply at_index_in_range. apply floor_scaled_range; try assumption.
    simpl. lia.
Qed.

Lemma X27_witness :
  (80 <= randomBpm (999 # 1000) <= 139)%Z
  /\ exists c, randomColor (999 # 1000) = Some c /\ In c colors.
Proof.
  assert (H0 : 0 <= 999 # 1000) by discriminate.
  assert (H1 : 999 # 1000 < 1) by reflexivity.
  exact (X27_upload_metadata_bounds (999 # 1000) H0 H1).
Defined.

(* ------------------------------------------------------------------ *)
(** ** Search results and reloads of the catalog *)

(** X28: [filteredTracks], whatever [trim] and [toLowerCase] do.  A query
    that trims to the empty string returns the whole catalog.  Otherwise
    the result holds exactly the catalog tracks whose lower-cased title or
    artist contains the lower-cased query, where the query is taken as
    typed (it is trimmed for the emptiness test only).  In every case the
    result is the catalog with some tracks left out, so the tracks keep
    their catalog order, and unique ids stay unique. *)
Theorem X28_search_results (trim toLowerCase : string -> string)
    (cat : list Track) (searchQuery : string) :
  (trim searchQuery = "" ->
   Search.filteredTracks trim toLowerCase cat searchQuery = cat)
  /\ (trim searchQuery <> "" ->
      forall t,
        In t (Search.filteredTracks trim toLowerCase cat searchQuery)
        <-> In t cat
            /\ (Search.includes (toLowerCase (title t))
                  (toLowerCase searchQuery) = true
                \/ Search.includes (toLowerCase (artist t))
                     (toLowerCase searchQuery) = true))
  /\ subseq (Search.filteredTracks trim toLowerCase cat searchQuery) cat
  /\ (NoDup (ids cat) ->
      NoDup (ids (Search.filteredTracks trim toLowerCase cat searchQuery))).
Proof.
  unfold Search.filteredTracks, Js.truthy_string. split; [|split; [|split]].
  - intros E. now rewrite E.
  - intros N t. apply String.eqb_neq in N. rewrite N. simpl.
    rewrite filter_In, orb_true_iff. reflexivity.
  - destruct (negb (negb (trim searchQuery =? "")));
      [apply subseq_refl|apply filter_subseq].
  - intros Hnd. destruct (negb (negb (trim searchQuery =? "")));
      [exact Hnd|now apply NoDup_ids_filter].
Qed.

Lemma X28_witness :
  Search.filteredTracks (fun s => s) (fun s => s) catalog "" = catalog
  /\ Search.filteredTracks (fun s => s) (fun s => s) catalog "le B"
     = [mine "B" true "user-2"]
  /\ subseq (Search.filteredTracks (fun s => s) (fun s => s) catalog "le B")
            catalog
  /\ NoDup (ids (Search.filteredTracks (fun s => s) (fun s => s) catalog
                   "le B")).
Proof.
  destruct (X28_search_results (fun s => s) (fun s => s) catalog "")
    as [A _].
  destruct (X28_search_results (fun s => s) (fun s => s) catalog "le B")
    as [_ [_ [O N]]].
  split; [exact (A eq_refl)|]. split; [reflexivity|].
  split; [exact O|exact (N NoDup_catalog)].
Defined.

(** X29: the optimistic update of [toggleFavorite] is what a reload would
    show.  If the catalog was built by [fetchTracks] from the rows and the
    user's favourite ids, and the request changes the favourite ids at the
    toggled id only, then the catalog after the optimistic update equals
    the catalog [fetchTracks] builds from the same rows and the new
    favourite ids. *)
Theorem X29_toggleFavorite_matches_reload (favs favs' : list string)
    (data : list TrackRow) (i uid : string) (s : AppState) (t : Track) :
  session s = Some uid -> uid <> "" ->
  tracks s = mappedTracks favs data ->
  find (has_id i) (tracks s) = Some t ->
  (forall x, includes favs' x
             = if x =? i then negb (includes favs i) else includes favs x) ->
  tracks (fst (toggleFavorite i s)) = mappedTracks favs' data.
Proof.
  intros Hs Hu Ht F Hfavs.
  assert (Hg : negb (Js.truthy_string uid) = false).
  { unfold Js.truthy_string. apply String.eqb_neq in Hu. now rewrite Hu. }
  unfold toggleFavorite. rewrite Hs, Hg, F. simpl. rewrite Ht.
  unfold mappedTracks. rewrite map_map. apply map_ext. intros r. simpl.
  rewrite (Hfavs (r_id r)).
  destruct (String.eqb_spec (r_id r) i) as [->|N]; reflexivity.
Qed.

Lemma X29_witness :
  tracks (fst (toggleFavorite "B"
                 (set_tracks (mappedTracks ["A"] rowsABC) signedIn)))
  = mappedTracks ["A"; "B"] rowsABC.
Proof.
  assert (Hu : "user-1" <> "") by discriminate.
  assert (Hf : forall x, includes ["A"; "B"] x
                         = if x =? "B" then negb (includes ["A"] "B")
                           else includes ["A"] x).
  { intros x. unfold includes. cbn [existsb].
    destruct (String.eqb_spec x "B") as [->|N]; [reflexivity|].
    rewrite (String.eqb_sym "B" x).
    apply String.eqb_neq in N. rewrite N.
    now rewrite !orb_false_r. }
  exact (X29_toggleFavorite_matches_reload ["A"] ["A"; "B"] rowsABC "B"
           "user-1" (set_tracks (mappedTracks ["A"] rowsABC) signedIn)
           (mkTrack "B" (Some "user-2") "Beta" "Bob" "90" false "b.png"
                    (Some "B.mp3") None (Some "#ff0055"))
           eq_refl Hu eq_refl eq_refl Hf).
Defined.

(* ------------------------------------------------------------------ *)
(** ** Skipping a track, and going back under shuffle *)

(** C2, at the failing input: a signed-in user with 1000 seconds on the
    stats row, track [A] of 200 seconds active in queue [A,B,C], shuffle
    off, 10 seconds played, and [handleNext] runs (the user skips).  The
    total becomes 1200: the full duration is credited, not the 10 seconds
    that were played.  [handlePrevious], two seconds into the track, moves
    the cursor to [C] and reports nothing: the total stays 1000. *)
Lemma C2_skip_credits_full_duration :
  (exists au, audioRef (playing "A" false 10) = Some au
              /\ position au == 10)
  /\ duration (playing "A" false 10) = Js.Fin 200
  /\ playtime (playing "A" false 10) = Some (Some (Js.Fin 1000))
  /\ (exists s',
        handleNext env0 (playing "A" false 10) = Js.Done s'
        /\ activeTrackId s' = Some "B"
        /\ playtime s' = Some (Some (Js.Fin (1000 + 200)))
        /\ playtime s' <> Some (Some (Js.Fin (1000 + 10))))
  /\ (exists s',
        handlePrevious env0 (playing "A" false 2) = Js.Done s'
        /\ activeTrackId s' = Some "C"
        /\ playtime s' = Some (Some (Js.Fin 1000))).
Proof.
  split; [eexists; split; reflexivity|].
  split; [reflexivity|]. split; [reflexivity|]. split.
  - eexists. split; [reflexivity|]. split; [reflexivity|].
    split; [reflexivity|]. intros H. vm_compute in H. discriminate.
  - eexists. split; [reflexivity|]. split; reflexivity.
Qed.

